(** * Exam factory: the CSV transform engine of [src/index.tsx]

    A shallow embedding of the utility functions of the quiz-bank converter
    ([parseCSV], [processSmartAnswer], [generateCSV]) and of the
    configuration export / import handlers, with the properties of the
    specification stated and proved over them. *)

From Stdlib Require Import ZArith List Bool Lia String Ascii Permutation.
From Stdlib Require DecimalN DecimalPos DecimalFacts.
Import ListNotations.
Local Open Scope Z_scope.

(** ** JavaScript strings

    A JavaScript string is a sequence of UTF-16 code units; [text[i]],
    [charCodeAt], [trim] and a regular expression without the [u] flag all
    work on code units, so a string is a list of integers in [0, 65535]. *)

Definition jsstring := list Z.

(** ASCII literals, for readable examples. *)
Definition str (s : string) : jsstring :=
  map (fun a => Z.of_N (N_of_ascii a)) (list_ascii_of_string s).

Definition DQUOTE : Z := 34.
Definition COMMA : Z := 44.
Definition LF : Z := 10.
Definition CR : Z := 13.

Definition isEmpty (s : jsstring) : bool :=
  match s with [] => true | _ :: _ => false end.

Fixpoint jsstring_eqb (a b : jsstring) : bool :=
  match a, b with
  | [], [] => true
  | x :: a', y :: b' => (x =? y) && jsstring_eqb a' b'
  | _, _ => false
  end.

(** [String.prototype.trim] strips the code units of WhiteSpace and
    LineTerminator (ECMA-262, 12.2 and 12.3) from both ends. *)
Definition isWhiteSpace (c : Z) : bool :=
  (c =? 9) || (c =? 10) || (c =? 11) || (c =? 12) || (c =? 13) || (c =? 32)
  || (c =? 160) || (c =? 5760) || ((8192 <=? c) && (c <=? 8202))
  || (c =? 8232) || (c =? 8233) || (c =? 8239) || (c =? 8287)
  || (c =? 12288) || (c =? 65279).

Fixpoint trimStart (s : jsstring) : jsstring :=
  match s with
  | [] => []
  | c :: r => if isWhiteSpace c then trimStart r else s
  end.

Definition trimEnd (s : jsstring) : jsstring := rev (trimStart (rev s)).

Definition trim (s : jsstring) : jsstring := trimEnd (trimStart s).

(** [Array.prototype.join] on an array of strings. *)
Fixpoint join (sep : jsstring) (l : list jsstring) : jsstring :=
  match l with
  | [] => []
  | [x] => x
  | x :: r => x ++ sep ++ join sep r
  end.

(** ** The tabular parser: [parseCSV] *)

Module Csv.

(** The mutable locals of the scanning loop. *)
Record scan := Scan {
  result : list (list jsstring);
  row : list jsstring;
  cell : jsstring;
  inQuotes : bool
}.

Definition start : scan := Scan [] [] [] false.

Definition nextIs (c : Z) (nextChar : option Z) : bool :=
  match nextChar with Some n => n =? c | None => false end.

(** One iteration of the [for] loop at [char = text[i]] with
    [nextChar = text[i + 1]] ([None] for [undefined]).  The boolean tells
    whether the body ran its extra [i++]. *)
Definition step (st : scan) (char : Z) (nextChar : option Z) : scan * bool :=
  if inQuotes st && (char =? DQUOTE) && nextIs DQUOTE nextChar then
    (Scan (result st) (row st) (cell st ++ [DQUOTE]) (inQuotes st), true)
  else if char =? DQUOTE then
    (Scan (result st) (row st) (cell st) (negb (inQuotes st)), false)
  else if negb (inQuotes st) && (char =? COMMA) then
    (Scan (result st) (row st ++ [trim (cell st)]) [] (inQuotes st), false)
  else if negb (inQuotes st) && ((char =? LF) || (char =? CR)) then
    let skip := (char =? CR) && nextIs LF nextChar in
    let row' := row st ++ [trim (cell st)] in
    let result' :=
      if (0 <? Z.of_nat (List.length row')) || negb (isEmpty (cell st))
      then result st ++ [row'] else result st in
    (Scan result' [] [] (inQuotes st), skip)
  else
    (Scan (result st) (row st) (cell st ++ [char]) (inQuotes st), false).

(** The loop [for (let i = 0; i < text.length; i++)], on the text from
    index [i] on. *)
Fixpoint run (text : jsstring) (st : scan) {struct text} : scan :=
  match text with
  | [] => st
  | char :: rest =>
      let '(st', skip) := step st char (hd_error rest) in
      match skip, rest with
      | true, _ :: rest' => run rest' st'
      | _, _ => run rest st'
      end
  end.

(** The flush after the loop. *)
Definition flush (st : scan) : list (list jsstring) :=
  if negb (isEmpty (cell st)) || (0 <? Z.of_nat (List.length (row st)))
  then result st ++ [row st ++ [trim (cell st)]]
  else result st.

Definition keepRow (r : list jsstring) : bool :=
  (0 <? Z.of_nat (List.length r)) && existsb (fun c => negb (isEmpty c)) r.

Definition parseCSV (text : jsstring) : list (list jsstring) :=
  if isEmpty text then []
  else filter keepRow (flush (run text start)).

End Csv.

(** ** The field model *)

Inductive FieldSourceType := csv_column | constant | filename | smart_answer.

(** A value of the TypeScript type [string | number].  The numbers a
    configuration holds are column indices, so a number is an integer. *)
Inductive jsvalue := VNum (n : Z) | VStr (s : jsstring).

Inductive OutputMode := Key | Content.

Record AnswerConfig := mkAnswerConfig {
  sourceKeyIdx : jsvalue;
  outputMode : OutputMode;
  optionIndices : list jsvalue
}.

Record ExportField := mkExportField {
  id : jsstring;
  headerName : jsstring;
  type : FieldSourceType;
  sourceValue : jsvalue;
  answerConfig : option AnswerConfig
}.

(** The strict comparison of [v] with the empty string. *)
Definition isEmptyString (v : jsvalue) : bool :=
  match v with VStr [] => true | _ => false end.

(** Decimal digits of a natural number, as code units. *)
Fixpoint uint_units (d : Decimal.uint) : jsstring :=
  match d with
  | Decimal.Nil => []
  | Decimal.D0 d => 48 :: uint_units d
  | Decimal.D1 d => 49 :: uint_units d
  | Decimal.D2 d => 50 :: uint_units d
  | Decimal.D3 d => 51 :: uint_units d
  | Decimal.D4 d => 52 :: uint_units d
  | Decimal.D5 d => 53 :: uint_units d
  | Decimal.D6 d => 54 :: uint_units d
  | Decimal.D7 d => 55 :: uint_units d
  | Decimal.D8 d => 56 :: uint_units d
  | Decimal.D9 d => 57 :: uint_units d
  end.

(** [String(n)] for an integer [n] (below 10^21 in magnitude, where
    JavaScript prints plain decimal digits). *)
Definition numberToString (n : Z) : jsstring :=
  if n <? 0 then 45 :: uint_units (N.to_uint (Z.to_N (- n)))
  else uint_units (N.to_uint (Z.to_N n)).

(** [String(v)] *)
Definition String_ (v : jsvalue) : jsstring :=
  match v with VNum n => numberToString n | VStr s => s end.

(** [row[n]]: [undefined] unless [n] is an index of the array; [None] as
    index stands for [NaN] and any other number that names no element. *)
Definition element (row : list jsstring) (n : option Z) : option jsstring :=
  match n with
  | Some i => if 0 <=? i then nth_error row (Z.to_nat i) else None
  | None => None
  end.

(** [x || EMPTY] for [x] a string or [undefined], EMPTY the empty
    string. *)
Definition orEmpty (x : option jsstring) : jsstring :=
  match x with Some s => s | None => [] end.

(** The [replace] of line 56: every code unit of the class, which holds
    U+FF21..U+FF3A and U+FF10..U+FF19, becomes
    [String.fromCharCode(s.charCodeAt(0) - 0xFEE0)]. *)
Definition inFullWidthClass (c : Z) : bool :=
  ((0xFF21 <=? c) && (c <=? 0xFF3A)) || ((0xFF10 <=? c) && (c <=? 0xFF19)).

Definition replaceFullWidth (s : jsstring) : jsstring :=
  map (fun c => if inFullWidthClass c then c - 0xFEE0 else c) s.

(** The block computing [targetIdx] from [key]: [/^[A-Z]$/] and
    [/^[1-9]$/] match exactly the one-unit strings of the class. *)
Definition targetIdxOf (key : jsstring) : Z :=
  match key with
  | [c] =>
      if (65 <=? c) && (c <=? 90) then c - 65
      else if (49 <=? c) && (c <=? 57) then (c - 48) - 1
      else -1
  | _ => -1
  end.

(** The [replace] of line 78: every double quote of [val] is doubled. *)
Definition doubleQuotes (val : jsstring) : jsstring :=
  flat_map (fun c => if c =? DQUOTE then [DQUOTE; DQUOTE] else [c]) val.

(** The template literal of [generateCSV]. *)
Definition quoteCell (val : jsstring) : jsstring :=
  [DQUOTE] ++ doubleQuotes val ++ [DQUOTE].

(** ** The row evaluator and the emitter

    [String.prototype.toUpperCase] and the conversion of a string to a
    number ([Number(s)]) are built-ins of the language: the code is
    embedded over them, and the theorems assume of them only the facts
    they state. *)

Section Evaluator.

Variable toUpperCase : jsstring -> jsstring.
Variable StringToNumber : jsstring -> option Z.

(** [Number(v)] *)
Definition Number (v : jsvalue) : option Z :=
  match v with VNum n => Some n | VStr s => StringToNumber s end.

(** Line 56: the key as it is compared. *)
Definition normalizeKey (rawKey : jsstring) : jsstring :=
  replaceFullWidth (toUpperCase rawKey).

Definition processSmartAnswer
    (row : list jsstring) (config : option AnswerConfig) : jsstring :=
  match config with
  | None => []
  | Some config =>
    if isEmptyString (sourceKeyIdx config) then []
    else
      let rawKey := trim (orEmpty (element row (Number (sourceKeyIdx config)))) in
      let key := normalizeKey rawKey in
      match outputMode config with
      | Key => key
      | Content =>
        let targetIdx := targetIdxOf key in
        if (0 <=? targetIdx)
           && (targetIdx <? Z.of_nat (List.length (optionIndices config)))
        then
          match nth_error (optionIndices config) (Z.to_nat targetIdx) with
          | Some colIdx =>
              if negb (isEmptyString colIdx)
              then orEmpty (element row (Number colIdx))
              else rawKey
          | None => rawKey
          end
        else rawKey
      end
  end.

(** The callback of [config.map] in [generateCSV]: the value of one
    field on one row, before quoting. *)
Definition fieldValue
    (file_name : jsstring) (row : list jsstring) (field : ExportField)
  : jsstring :=
  match type field with
  | filename => file_name
  | constant => String_ (sourceValue field)
  | csv_column => orEmpty (element row (Number (sourceValue field)))
  | smart_answer => processSmartAnswer row (answerConfig field)
  end.

Definition outputRow
    (config : list ExportField) (file_name : jsstring) (row : list jsstring)
  : list jsstring :=
  map (fun field => quoteCell (fieldValue file_name row field)) config.

(** [csvRows] starts with the header line and gets one [push] per row of
    [sourceData.slice(1)]. *)
Definition generateCSV
    (config : list ExportField) (sourceData : list (list jsstring))
    (file_name : jsstring) : jsstring :=
  let headers := map headerName config in
  let csvRows :=
    fold_left
      (fun csvRows row => csvRows ++ [join [COMMA] (outputRow config file_name row)])
      (tl sourceData)
      [join [COMMA] headers] in
  join [LF] csvRows.

End Evaluator.

(** The two built-ins on the inputs of the examples: upper-casing of
    Basic Latin and of the full-width forms, and the numeric value of a
    string of decimal digits between optional white space (the empty
    string converts to 0).  Strings of other shapes, which the examples
    do not use, get no value here. *)
Definition upperUnit (c : Z) : Z :=
  if ((97 <=? c) && (c <=? 122)) || ((0xFF41 <=? c) && (c <=? 0xFF5A))
  then c - 32 else c.

Definition toUpperCase_basic (s : jsstring) : jsstring := map upperUnit s.

Definition isDigit (c : Z) : bool := (48 <=? c) && (c <=? 57).

Definition digitsValue (s : jsstring) : Z :=
  fold_left (fun acc c => 10 * acc + (c - 48)) s 0.

Definition StringToNumber_digits (s : jsstring) : option Z :=
  let t := trim s in
  if forallb isDigit t then Some (digitsValue t) else None.

(** ** The configuration codec: [JSON.stringify] and [JSON.parse]

    The document is what [JSON.stringify(exportConfig, null, 2)] prints and
    [JSON.parse] reads (ECMA-262, 25.5).  The grammar is the whole JSON
    grammar.  Of the values, the model keeps what a configuration is made
    of: integers are [JNum], exact; a numeral with a fraction or an
    exponent is recognised and kept as its text ([JNumeral]), its numeric
    value being outside the model; the properties of an object are listed
    in the order of their creation (the keys of a configuration are not
    array indices, which JavaScript would list first). *)

Module Json.

#[local] Unset Elimination Schemes.

Inductive json :=
| JNull
| JBool (b : bool)
| JNum (n : Z)
| JNumeral (lit : jsstring)
| JStr (s : jsstring)
| JArr (items : list json)
| JObj (props : list (jsstring * json)).

#[local] Set Elimination Schemes.

(** *** Printing *)

Definition hexUnit (n : Z) : Z := if n <? 10 then 48 + n else 87 + n.

(** The escape of one code unit as a backslash, [u] and four lower-case
    hexadecimal digits. *)
Definition unicodeEscape (c : Z) : jsstring :=
  [92; 117; hexUnit (c / 4096); hexUnit ((c / 256) mod 16);
   hexUnit ((c / 16) mod 16); hexUnit (c mod 16)].

Definition isHighSurrogate (c : Z) : bool := (0xD800 <=? c) && (c <=? 0xDBFF).
Definition isLowSurrogate (c : Z) : bool := (0xDC00 <=? c) && (c <=? 0xDFFF).

(** A code unit that is not a surrogate, as QuoteJSONString prints it. *)
Definition escapeUnit (c : Z) : jsstring :=
  if c =? 8 then [92; 98]
  else if c =? 9 then [92; 116]
  else if c =? 10 then [92; 110]
  else if c =? 12 then [92; 102]
  else if c =? 13 then [92; 114]
  else if c =? 34 then [92; 34]
  else if c =? 92 then [92; 92]
  else if c <? 32 then unicodeEscape c
  else [c].

(** The text between the quotes: a surrogate pair is printed as it is, a
    lone surrogate is escaped. *)
Fixpoint quoteUnits (s : jsstring) : jsstring :=
  match s with
  | [] => []
  | c :: r =>
      if isHighSurrogate c then
        match r with
        | d :: r' =>
            if isLowSurrogate d then c :: d :: quoteUnits r'
            else unicodeEscape c ++ quoteUnits r
        | [] => unicodeEscape c
        end
      else if isLowSurrogate c then unicodeEscape c ++ quoteUnits r
      else escapeUnit c ++ quoteUnits r
  end.

Definition quoteJSONString (s : jsstring) : jsstring :=
  [DQUOTE] ++ quoteUnits s ++ [DQUOTE].

(** The gap of [JSON.stringify(_, null, 2)]: two spaces. *)
Definition gap : jsstring := [32; 32].

(** SerializeJSONProperty with a non-empty gap, at indentation [indent]. *)
Fixpoint serialize (indent : jsstring) (v : json) {struct v} : jsstring :=
  match v with
  | JNull => str "null"
  | JBool true => str "true"
  | JBool false => str "false"
  | JNum n => numberToString n
  | JNumeral lit => lit
  | JStr s => quoteJSONString s
  | JArr [] => str "[]"
  | JArr items =>
      let stepback := indent in
      let indent := indent ++ gap in
      [91; LF] ++ indent
      ++ join (COMMA :: LF :: indent) (map (serialize indent) items)
      ++ [LF] ++ stepback ++ [93]
  | JObj [] => str "{}"
  | JObj props =>
      let stepback := indent in
      let indent := indent ++ gap in
      [123; LF] ++ indent
      ++ join (COMMA :: LF :: indent)
           (map (fun p => match p with
                          | (k, x) => quoteJSONString k ++ [58; 32] ++ serialize indent x
                          end) props)
      ++ [LF] ++ stepback ++ [125]
  end.

Definition stringify (v : json) : jsstring := serialize [] v.

(** *** Parsing *)

Definition isJsonWs (c : Z) : bool :=
  (c =? 9) || (c =? 10) || (c =? 13) || (c =? 32).

Fixpoint skipWs (s : jsstring) : jsstring :=
  match s with
  | [] => []
  | c :: r => if isJsonWs c then skipWs r else s
  end.

Definition hexValue (c : Z) : option Z :=
  if (48 <=? c) && (c <=? 57) then Some (c - 48)
  else if (97 <=? c) && (c <=? 102) then Some (c - 87)
  else if (65 <=? c) && (c <=? 70) then Some (c - 55)
  else None.

Definition unescape (e : Z) : option Z :=
  if e =? 34 then Some 34
  else if e =? 92 then Some 92
  else if e =? 47 then Some 47
  else if e =? 98 then Some 8
  else if e =? 102 then Some 12
  else if e =? 110 then Some 10
  else if e =? 114 then Some 13
  else if e =? 116 then Some 9
  else None.

(** The characters of a string after its opening quote, up to and with
    the closing one. *)
Fixpoint parseChars (s : jsstring) : option (jsstring * jsstring) :=
  match s with
  | [] => None
  | c :: r =>
      if c =? DQUOTE then Some ([], r)
      else if c =? 92 then
        match r with
        | [] => None
        | e :: r1 =>
            if e =? 117 then
              match r1 with
              | h1 :: h2 :: h3 :: h4 :: r2 =>
                  match hexValue h1, hexValue h2, hexValue h3, hexValue h4 with
                  | Some a, Some b, Some c', Some d =>
                      match parseChars r2 with
                      | Some (t, rest) =>
                          Some (4096 * a + 256 * b + 16 * c' + d :: t, rest)
                      | None => None
                      end
                  | _, _, _, _ => None
                  end
              | _ => None
              end
            else
              match unescape e with
              | Some u =>
                  match parseChars r1 with
                  | Some (t, rest) => Some (u :: t, rest)
                  | None => None
                  end
              | None => None
              end
        end
      else if c <? 32 then None
      else
        match parseChars r with
        | Some (t, rest) => Some (c :: t, rest)
        | None => None
        end
  end.

(** The longest prefix of decimal digits, and what follows it. *)
Fixpoint spanDigits (s : jsstring) : jsstring * jsstring :=
  match s with
  | [] => ([], [])
  | c :: r =>
      if isDigit c then let '(ds, rest) := spanDigits r in (c :: ds, rest)
      else ([], s)
  end.

Fixpoint units_uint (ds : jsstring) : Decimal.uint :=
  match ds with
  | [] => Decimal.Nil
  | c :: r =>
      let d := units_uint r in
      if c =? 48 then Decimal.D0 d
      else if c =? 49 then Decimal.D1 d
      else if c =? 50 then Decimal.D2 d
      else if c =? 51 then Decimal.D3 d
      else if c =? 52 then Decimal.D4 d
      else if c =? 53 then Decimal.D5 d
      else if c =? 54 then Decimal.D6 d
      else if c =? 55 then Decimal.D7 d
      else if c =? 56 then Decimal.D8 d
      else Decimal.D9 d
  end.

(** The optional fraction: a dot and at least one digit. *)
Definition parseFraction (s : jsstring) : option (jsstring * jsstring) :=
  match s with
  | c :: r =>
      if c =? 46 then
        match spanDigits r with
        | ([], _) => None
        | (ds, rest) => Some (c :: ds, rest)
        end
      else Some ([], s)
  | [] => Some ([], s)
  end.

(** The optional exponent: [e] or [E], an optional sign and at least one
    digit. *)
Definition parseExponent (s : jsstring) : option (jsstring * jsstring) :=
  match s with
  | c :: r =>
      if (c =? 101) || (c =? 69) then
        let '(sign, r1) :=
          match r with
          | g :: r' => if (g =? 43) || (g =? 45) then ([g], r') else ([], r)
          | [] => ([], r)
          end in
        match spanDigits r1 with
        | ([], _) => None
        | (ds, rest) => Some (c :: sign ++ ds, rest)
        end
      else Some ([], s)
  | [] => Some ([], s)
  end.

(** A JSON number after its optional minus: an integer part without a
    leading zero, an optional fraction and an optional exponent. *)
Definition parseUnsigned (minus : bool) (s1 : jsstring) : option (json * jsstring) :=
  match spanDigits s1 with
  | ([], _) => None
  | (d :: ds, s2) =>
      if (d =? 48) && negb (isEmpty ds) then None
      else
        match parseFraction s2 with
        | None => None
        | Some (frac, s3) =>
            match parseExponent s3 with
            | None => None
            | Some (ex, s4) =>
                if isEmpty frac && isEmpty ex then
                  let n := Z.of_N (N.of_uint (units_uint (d :: ds))) in
                  Some (JNum (if minus then - n else n), s4)
                else
                  Some (JNumeral ((if minus then [45] else [])
                                  ++ (d :: ds) ++ frac ++ ex), s4)
            end
        end
  end.

Definition parseNumber (s : jsstring) : option (json * jsstring) :=
  match s with
  | c :: r => if c =? 45 then parseUnsigned true r else parseUnsigned false s
  | [] => None
  end.

(** [s] starts with the word [w]: what follows it. *)
Fixpoint afterWord (w s : jsstring) : option jsstring :=
  match w, s with
  | [], _ => Some s
  | a :: w', c :: s' => if a =? c then afterWord w' s' else None
  | _ :: _, [] => None
  end.

(** CreateDataProperty on the object under construction: a repeated key
    keeps its place and takes the later value. *)
Fixpoint setProp (k : jsstring) (x : json) (props : list (jsstring * json))
  : list (jsstring * json) :=
  match props with
  | [] => [(k, x)]
  | (k', x') :: r =>
      if jsstring_eqb k' k then (k', x) :: r else (k', x') :: setProp k x r
  end.

(** Recursive descent, on a counter that [parse] below sets high enough
    for the whole text. *)
Fixpoint parseValue (fuel : nat) (s : jsstring) {struct fuel}
  : option (json * jsstring) :=
  match fuel with
  | O => None
  | S fuel =>
      match skipWs s with
      | [] => None
      | c :: r =>
          if c =? 91 then
            match skipWs r with
            | c' :: r' =>
                if c' =? 93 then Some (JArr [], r')
                else parseElements fuel r []
            | [] => None
            end
          else if c =? 123 then
            match skipWs r with
            | c' :: r' =>
                if c' =? 125 then Some (JObj [], r')
                else parseMembers fuel r []
            | [] => None
            end
          else if c =? DQUOTE then
            match parseChars r with
            | Some (t, rest) => Some (JStr t, rest)
            | None => None
            end
          else if c =? 110 then
            match afterWord (str "ull") r with
            | Some rest => Some (JNull, rest)
            | None => None
            end
          else if c =? 116 then
            match afterWord (str "rue") r with
            | Some rest => Some (JBool true, rest)
            | None => None
            end
          else if c =? 102 then
            match afterWord (str "alse") r with
            | Some rest => Some (JBool false, rest)
            | None => None
            end
          else parseNumber (c :: r)
      end
  end

with parseElements (fuel : nat) (s : jsstring) (acc : list json) {struct fuel}
  : option (json * jsstring) :=
  match fuel with
  | O => None
  | S fuel =>
      match parseValue fuel s with
      | None => None
      | Some (x, r) =>
          match skipWs r with
          | c :: r' =>
              if c =? COMMA then parseElements fuel r' (acc ++ [x])
              else if c =? 93 then Some (JArr (acc ++ [x]), r')
              else None
          | [] => None
          end
      end
  end

with parseMembers (fuel : nat) (s : jsstring) (acc : list (jsstring * json))
    {struct fuel} : option (json * jsstring) :=
  match fuel with
  | O => None
  | S fuel =>
      match skipWs s with
      | q :: r0 =>
          if q =? DQUOTE then
            match parseChars r0 with
            | None => None
            | Some (k, r1) =>
                match skipWs r1 with
                | c1 :: r2 =>
                    if c1 =? 58 then
                      match parseValue fuel r2 with
                      | None => None
                      | Some (x, r3) =>
                          match skipWs r3 with
                          | c :: r' =>
                              if c =? COMMA
                              then parseMembers fuel r' (setProp k x acc)
                              else if c =? 125
                              then Some (JObj (setProp k x acc), r')
                              else None
                          | [] => None
                          end
                      end
                    else None
                | [] => None
                end
            end
          else None
      | [] => None
      end
  end.

(** [JSON.parse(text)]: [None] when it throws a SyntaxError. *)
Definition parse (text : jsstring) : option json :=
  match parseValue (2 * List.length text + 1) text with
  | Some (v, rest) => if isEmpty (skipWs rest) then Some v else None
  | None => None
  end.

(** The grammar accepts [text]: some counter parses it whole. *)
Definition wellFormed (text : jsstring) : Prop :=
  exists fuel v rest, parseValue fuel text = Some (v, rest) /\ skipWs rest = [].

End Json.

(** ** The configuration as a JavaScript value

    The objects of [exportConfig] as [addField] and [autoSuggest] build
    them: the properties in the order of the object literals,
    [answerConfig] only on a smart-answer field that has one. *)

Definition type_tag (t : FieldSourceType) : jsstring :=
  match t with
  | csv_column => str "csv_column"
  | constant => str "constant"
  | filename => str "filename"
  | smart_answer => str "smart_answer"
  end.

Definition mode_tag (m : OutputMode) : jsstring :=
  match m with Key => str "key" | Content => str "content" end.

Definition value_json (v : jsvalue) : Json.json :=
  match v with VNum n => Json.JNum n | VStr s => Json.JStr s end.

Definition answerConfig_json (a : AnswerConfig) : Json.json :=
  Json.JObj
    [(str "sourceKeyIdx", value_json (sourceKeyIdx a));
     (str "outputMode", Json.JStr (mode_tag (outputMode a)));
     (str "optionIndices", Json.JArr (map value_json (optionIndices a)))].

Definition field_json (f : ExportField) : Json.json :=
  Json.JObj
    ([(str "id", Json.JStr (id f));
      (str "headerName", Json.JStr (headerName f));
      (str "type", Json.JStr (type_tag (type f)));
      (str "sourceValue", value_json (sourceValue f))]
     ++ match answerConfig f with
        | Some a => [(str "answerConfig", answerConfig_json a)]
        | None => []
        end).

Definition config_json (c : list ExportField) : Json.json :=
  Json.JArr (map field_json c).

(** ** Export and import of the configuration

    The state [exportConfig] holds whatever [setExportConfig] was last
    given: after an import, the value [JSON.parse] returned. *)

(** The text [exportCurrentConfig] hands to [downloadFile]. *)
Definition exportCurrentConfig (exportConfig : Json.json) : jsstring :=
  Json.stringify exportConfig.

(** The message of the [alert] in [importConfig]. *)
Definition invalidConfigMessage : jsstring :=
  [0x7121; 0x6548; 0x7684; 0x8A2D; 0x5B9A; 0x6A94; 0x683C; 0x5F0F].

(** [importConfig] on the text of the chosen file ([None]: no file was
    chosen): the new state and the alert shown, if any. *)
Definition importConfig (file : option jsstring) (exportConfig : Json.json)
  : Json.json * option jsstring :=
  match file with
  | None => (exportConfig, None)
  | Some text =>
      match Json.parse text with
      | Some imported => (imported, None)
      | None => (exportConfig, Some invalidConfigMessage)
      end
  end.

(** ** Well-formed values

    What the round trip through the codec asks of a value: strings made
    of code units, objects without a repeated key, numbers that are
    integers. *)

Definition isCodeUnit (c : Z) : bool := (0 <=? c) && (c <? 65536).

Definition wfString (s : jsstring) : bool := forallb isCodeUnit s.

Fixpoint distinct (l : list jsstring) : bool :=
  match l with
  | [] => true
  | k :: r => negb (existsb (jsstring_eqb k) r) && distinct r
  end.

Module JsonWf.
Import Json.

Fixpoint wf (v : json) {struct v} : bool :=
  match v with
  | JNull | JBool _ | JNum _ => true
  | JNumeral _ => false
  | JStr s => wfString s
  | JArr items => forallb wf items
  | JObj props =>
      distinct (map fst props)
      && forallb (fun p => match p with (k, x) => wfString k && wf x end) props
  end.

End JsonWf.

(** A number of a configuration is an integer that JavaScript holds
    exactly and prints in plain digits. *)
Definition wfValue (v : jsvalue) : bool :=
  match v with
  | VNum n => (- 9007199254740992 <? n) && (n <? 9007199254740992)
  | VStr s => wfString s
  end.

Definition wfAnswer (a : AnswerConfig) : bool :=
  wfValue (sourceKeyIdx a) && forallb wfValue (optionIndices a).

Definition wfField (f : ExportField) : bool :=
  wfString (id f) && wfString (headerName f) && wfValue (sourceValue f)
  && match answerConfig f with Some a => wfAnswer a | None => true end.

Definition wfConfig (c : list ExportField) : bool := forallb wfField c.

(** ** What the theorems assume of the built-ins *)

(** Basic Latin and the full-width forms U+FF01..U+FF5E. *)
Definition basicUnit (c : Z) : bool :=
  ((0 <=? c) && (c <? 128)) || ((0xFF01 <=? c) && (c <=? 0xFF5E)).

(** On a string of such units [toUpperCase] works unit by unit: the small
    letters, half-width and full-width, go to their capitals, everything
    else stays. *)
Definition upper_on_basic (toUpperCase : jsstring -> jsstring) : Prop :=
  forall s, forallb basicUnit s = true -> toUpperCase s = map upperUnit s.

(** No upper-cased string holds a full-width small letter
    (U+FF41..U+FF5A). *)
Definition upper_no_fullwidth_small (toUpperCase : jsstring -> jsstring) : Prop :=
  forall s c, In c (toUpperCase s) -> (0xFF41 <=? c) && (c <=? 0xFF5A) = false.

(** [Number] of the empty string is 0. *)
Definition empty_string_is_zero (StringToNumber : jsstring -> option Z) : Prop :=
  StringToNumber [] = Some 0.

(** ** The specification's wording, for comparison with the code *)

Module Spec.

Definition isFullWidthLetter (c : Z) : bool :=
  ((0xFF21 <=? c) && (c <=? 0xFF3A)) || ((0xFF41 <=? c) && (c <=? 0xFF5A)).

Definition isFullWidthDigit (c : Z) : bool := (0xFF10 <=? c) && (c <=? 0xFF19).

(** Section 4.2, step 3: the upper-cased key with every full-width Latin
    letter or digit moved down by the full-width offset, every other
    character unchanged. *)
Definition normalize (uppercase : jsstring -> jsstring) (rawKey : jsstring)
  : jsstring :=
  map (fun c => if isFullWidthLetter c || isFullWidthDigit c
                then c - 0xFEE0 else c)
      (uppercase rawKey).

(** Section 4.3: the header names joined by commas, then for every row of
    the grid but row 0 the quoted results of the evaluator joined by
    commas; the lines joined by line feeds. *)
Definition emit (evaluate : list jsstring -> list jsstring)
    (headers : list jsstring) (grid : list (list jsstring)) : jsstring :=
  join [LF]
    (join [COMMA] headers
     :: map (fun row => join [COMMA] (map quoteCell (evaluate row))) (tl grid)).

End Spec.

(** ** Sample data of the specification's examples *)

Definition quizRow : list jsstring :=
  [str "Q1"; str "opt A"; str "opt B"; str "opt C"; str "opt D"; str "B"].

Definition quizAnswer (mode : OutputMode) : AnswerConfig :=
  mkAnswerConfig (VNum 5) mode [VNum 1; VNum 2; VNum 3; VNum 4].

(** The second option points at a column the row does not have. *)
Definition strayAnswer : AnswerConfig :=
  mkAnswerConfig (VNum 5) Content [VNum 1; VNum 9; VNum 3; VNum 4].

(** A column field whose source column was never chosen. *)
Definition unsetColumn : ExportField :=
  mkExportField (str "f_q") (str "question") csv_column (VStr []) None.

Definition twoColumns : list ExportField :=
  [mkExportField (str "c0") (str "h1") csv_column (VNum 0) None;
   mkExportField (str "c1") (str "h2") csv_column (VNum 1) None].

(** One field of each kind; the smart answer has two option slots set
    (one by a number, one by the text of a select) and two unset. *)
Definition allKinds : list ExportField :=
  [mkExportField (str "f_name") (str "file") filename (VStr []) None;
   mkExportField (str "f_q") (str "question") csv_column (VNum 0) None;
   mkExportField (str "f_c") (str "note, quoted") constant
     (VStr (str "a" ++ [DQUOTE; 92; LF; 0x984C])) None;
   mkExportField (str "f_ans") (str "answer") smart_answer (VStr [])
     (Some (mkAnswerConfig (VNum 5) Content
              [VNum 1; VStr []; VStr (str "3"); VStr []]))].

Definition twoColumnGrid : list (list jsstring) :=
  [[str "h1"; str "h2"]; [str "a,b"; str "c" ++ [DQUOTE] ++ str "d"]].

(** ** Invariants and auxiliary predicates of the proofs *)

(** A string that does not start with white space. *)
Definition startsClean (s : jsstring) : Prop :=
  match s with [] => True | c :: _ => isWhiteSpace c = false end.

Module CsvInv.
Import Csv.

(** The invariant of the scanning loop: what was pushed is trimmed. *)
Definition Trimmed (c : jsstring) : Prop := trim c = c.

Definition cellsTrimmed (st : scan) : Prop :=
  Forall (Forall Trimmed) (result st) /\ Forall Trimmed (row st).

End CsvInv.

Module JsonInv.
Import Json JsonWf.

Definition consChars (c : Z) (p : option (jsstring * jsstring))
  : option (jsstring * jsstring) :=
  match p with Some (t, rest) => Some (c :: t, rest) | None => None end.

Definition noDigitAhead (rest : jsstring) : Prop :=
  match rest with [] => True | c :: _ => isDigit c = false end.

(** What may follow a value in a printed document. *)
Definition follow (rest : jsstring) : Prop :=
  match rest with [] => True | c :: _ => c = COMMA \/ c = LF end.

Definition allWs (w : jsstring) : Prop := forallb isJsonWs w = true.

(** A value is read back from its printed form, whatever white space
    comes before and whatever delimiter comes after. *)
Definition parsesBack (v : json) : Prop :=
  wf v = true ->
  forall indent w rest fuel,
    allWs indent -> allWs w -> follow rest ->
    (2 * List.length (w ++ serialize indent v ++ rest) < fuel)%nat ->
    parseValue fuel (w ++ serialize indent v ++ rest) = Some (v, rest).

(** One member of a printed object. *)
Definition memberText (indent : jsstring) (p : jsstring * json) : jsstring :=
  match p with (k, x) => quoteJSONString k ++ [58; 32] ++ serialize indent x end.

(** Every successful call consumes input. *)
Definition consumes (fuel : nat) : Prop :=
  (forall s v r, parseValue fuel s = Some (v, r) ->
                 (List.length r < List.length s)%nat)
  /\ (forall s acc v r, parseElements fuel s acc = Some (v, r) ->
                        (List.length r < List.length s)%nat)
  /\ (forall s acc v r, parseMembers fuel s acc = Some (v, r) ->
                        (List.length r < List.length s)%nat).

(** A successful call succeeds alike with the counter of [parse]. *)
Definition adequate (fuel : nat) : Prop :=
  (forall s x, parseValue fuel s = Some x ->
     forall fuel', (2 * List.length s < fuel')%nat ->
                   parseValue fuel' s = Some x)
  /\ (forall s acc x, parseElements fuel s acc = Some x ->
        forall fuel', (2 * List.length s + 1 < fuel')%nat ->
                      parseElements fuel' s acc = Some x)
  /\ (forall s acc x, parseMembers fuel s acc = Some x ->
        forall fuel', (2 * List.length s + 1 < fuel')%nat ->
                      parseMembers fuel' s acc = Some x).

End JsonInv.

(** ** The editor: the handlers of [ExamFactory] on the configuration *)

Module Editor.

(** [a.splice(start, 1)] and [a.splice(start, 0, x)] for a start index
    that is not negative; a start beyond the end is clamped to the
    length. *)
Definition spliceDelete1 {A} (start : nat) (a : list A) : list A :=
  firstn start a ++ skipn (S start) a.

Definition spliceInsert {A} (start : nat) (x : A) (a : list A) : list A :=
  firstn start a ++ x :: skipn start a.

(** The default label of [addField]. *)
Definition newFieldLabel : jsstring := [0x65B0; 0x6B04; 0x4F4D].

(** The [answerConfig] a new smart-answer field starts with. *)
Definition emptyAnswerConfig : AnswerConfig :=
  mkAnswerConfig (VStr []) Content [VStr []; VStr []; VStr []; VStr []].

(** [addField(type, value, label)], where [newId] is the text that
    [Math.random().toString(36).substr(2, 9)] returned; an argument left
    out ([None]) takes its default. *)
Definition addField (newId : jsstring) (exportConfig : list ExportField)
    (kind : FieldSourceType) (value : option jsvalue) (label : option jsstring)
  : list ExportField :=
  let field :=
    mkExportField newId
      (match label with Some l => l | None => newFieldLabel end)
      kind
      (match value with Some v => v | None => VStr [] end)
      (match kind with smart_answer => Some emptyAnswerConfig | _ => None end) in
  exportConfig ++ [field].

(** A value of type [Partial<ExportField>]: [None] for a key that the
    object does not have. *)
Record Updates := mkUpdates {
  u_id : option jsstring;
  u_headerName : option jsstring;
  u_type : option FieldSourceType;
  u_sourceValue : option jsvalue;
  u_answerConfig : option (option AnswerConfig)
}.

Definition orKeep {A} (u : option A) (old : A) : A :=
  match u with Some x => x | None => old end.

(** The spread of [f] and then of [updates] into one object. *)
Definition merge (f : ExportField) (updates : Updates) : ExportField :=
  mkExportField
    (orKeep (u_id updates) (id f))
    (orKeep (u_headerName updates) (headerName f))
    (orKeep (u_type updates) (type f))
    (orKeep (u_sourceValue updates) (sourceValue f))
    (orKeep (u_answerConfig updates) (answerConfig f)).

Definition updateField (exportConfig : list ExportField) (target : jsstring)
    (updates : Updates) : list ExportField :=
  map (fun f => if jsstring_eqb (id f) target then merge f updates else f)
      exportConfig.

(** The click on the bin of the field [target] (line 366). *)
Definition removeField (exportConfig : list ExportField) (target : jsstring)
  : list ExportField :=
  filter (fun f => negb (jsstring_eqb (id f) target)) exportConfig.

(** The updates the form controls send (lines 361 to 436); [field] is the
    field the control is drawn for, [text] is [e.target.value]. *)
Definition noUpdates : Updates := mkUpdates None None None None None.

Definition setHeaderName (text : jsstring) : Updates :=
  mkUpdates None (Some text) None None None.

Definition setSourceValue (text : jsstring) : Updates :=
  mkUpdates None None None (Some (VStr text)) None.

Definition setAnswerConfig (a : AnswerConfig) : Updates :=
  mkUpdates None None None None (Some (Some a)).

Definition withKeyColumn (a : AnswerConfig) (text : jsstring) : AnswerConfig :=
  mkAnswerConfig (VStr text) (outputMode a) (optionIndices a).

Definition withOutputMode (a : AnswerConfig) (mode : OutputMode) : AnswerConfig :=
  mkAnswerConfig (sourceKeyIdx a) mode (optionIndices a).

(** [newIndices[i] = text] on the copy of [optionIndices] (the form
    draws the slots 0 to 3).  An index equal to the length appends; an
    index beyond it would leave holes in the array, an outcome no list
    represents: [None]. *)
Fixpoint setSlot (i : nat) (text : jsstring) (indices : list jsvalue)
  : option (list jsvalue) :=
  match indices, i with
  | [], O => Some [VStr text]
  | [], S _ => None
  | _ :: r, O => Some (VStr text :: r)
  | v :: r, S i' =>
      match setSlot i' text r with
      | Some r' => Some (v :: r')
      | None => None
      end
  end.

Definition withOptionSlot (a : AnswerConfig) (i : nat) (text : jsstring)
  : option AnswerConfig :=
  match setSlot i text (optionIndices a) with
  | Some indices => Some (mkAnswerConfig (sourceKeyIdx a) (outputMode a) indices)
  | None => None
  end.


(** The state of a drag: the configuration and [draggedItemIndex]. *)
Record Drag := mkDrag {
  dragConfig : list ExportField;
  draggedItemIndex : option nat
}.

Definition onDragStart (index : nat) (st : Drag) : Drag :=
  mkDrag (dragConfig st) (Some index).

Definition onDragEnd (st : Drag) : Drag := mkDrag (dragConfig st) None.

(** [onDragEnter(index)].  When [draggedItemIndex] is outside the array,
    [itemToMove] is [undefined] and the new array would hold it: this
    outcome, which no list of fields represents, is [None]. *)
Definition onDragEnter (index : nat) (st : Drag) : option Drag :=
  match draggedItemIndex st with
  | None => Some st
  | Some dragged =>
      if Nat.eqb dragged index then Some st
      else
        match nth_error (dragConfig st) dragged with
        | Some itemToMove =>
            Some (mkDrag
                    (spliceInsert index itemToMove
                       (spliceDelete1 dragged (dragConfig st)))
                    (Some index))
        | None => None
        end
  end.

(** The cell of the preview table (lines 489 to 494); [file_name] is
    [file?.name]. *)
Section Preview.

Variable toUpperCase : jsstring -> jsstring.
Variable StringToNumber : jsstring -> option Z.

Definition previewValue (file_name : option jsstring) (row : list jsstring)
    (f : ExportField) : jsstring :=
  match type f with
  | filename =>
      match file_name with
      | Some (c :: n) => c :: n
      | _ => [45]
      end
  | constant => String_ (sourceValue f)
  | csv_column => orEmpty (element row (Number StringToNumber (sourceValue f)))
  | smart_answer => processSmartAnswer toUpperCase StringToNumber row (answerConfig f)
  end.

(** The rows of the preview: [originalData.slice(1, 21)]. *)
Definition previewRows (exportConfig : list ExportField)
    (originalData : list (list jsstring)) (file_name : option jsstring)
  : list (list jsstring) :=
  map (fun row => map (previewValue file_name row) exportConfig)
      (firstn 20 (skipn 1 originalData)).

End Preview.

End Editor.

(** ** The suggested configuration: [autoSuggest] *)

Module Suggest.

(** The object read from the answer of the service: each role is a
    column index, or [null] or missing ([None]). *)
Record Mapping := mkMapping {
  question : option Z;
  option1 : option Z;
  option2 : option Z;
  option3 : option Z;
  option4 : option Z;
  answer : option Z
}.

(** [x ?? EMPTY], EMPTY the empty string. *)
Definition orUnset (x : option Z) : jsvalue :=
  match x with Some n => VNum n | None => VStr [] end.

(** The fields built in the [try] block (lines 141 to 159). *)
Definition suggestedFields (mapping : Mapping) : list ExportField :=
  [mkExportField (str "f_name") [0x4F86; 0x6E90; 0x6A94; 0x540D]
     filename (VStr []) None;
   mkExportField (str "f_q") [0x984C; 0x76EE; 0x5167; 0x5BB9]
     csv_column (orUnset (question mapping)) None;
   mkExportField (str "f_o1") [0x9078; 0x9805; 49]
     csv_column (orUnset (option1 mapping)) None;
   mkExportField (str "f_o2") [0x9078; 0x9805; 50]
     csv_column (orUnset (option2 mapping)) None;
   mkExportField (str "f_o3") [0x9078; 0x9805; 51]
     csv_column (orUnset (option3 mapping)) None;
   mkExportField (str "f_o4") [0x9078; 0x9805; 52]
     csv_column (orUnset (option4 mapping)) None;
   mkExportField (str "f_ans") [0x6B63; 0x78BA; 0x7B54; 0x6848; 0x6587; 0x5B57]
     smart_answer (VStr [])
     (Some (mkAnswerConfig (orUnset (answer mapping)) Content
              [orUnset (option1 mapping); orUnset (option2 mapping);
               orUnset (option3 mapping); orUnset (option4 mapping)]))].

(** The indices of the answer are integers that JavaScript holds
    exactly. *)
Definition safeIndex (x : option Z) : bool :=
  match x with
  | Some n => (- 9007199254740992 <? n) && (n <? 9007199254740992)
  | None => true
  end.

Definition safeMapping (mapping : Mapping) : bool :=
  safeIndex (question mapping) && safeIndex (option1 mapping)
  && safeIndex (option2 mapping) && safeIndex (option3 mapping)
  && safeIndex (option4 mapping) && safeIndex (answer mapping).

(** The configuration of the [catch] block (line 162). *)
Definition fallbackFields : list ExportField :=
  [mkExportField (str "f_err") [0x984C; 0x76EE] csv_column (VNum 0) None].

(** The configuration [autoSuggest] sets: [None] stands for a request or
    a [JSON.parse] that threw. *)
Definition autoSuggest (response : option Mapping) : list ExportField :=
  match response with
  | Some mapping => suggestedFields mapping
  | None => fallbackFields
  end.

End Suggest.

(** ** The downloads: [downloadFile] *)

Fixpoint startsWith (w s : jsstring) : bool :=
  match w, s with
  | [], _ => true
  | a :: w', c :: s' => (a =? c) && startsWith w' s'
  | _ :: _, [] => false
  end.

(** [s.includes(sub)] *)
Fixpoint includes (s sub : jsstring) : bool :=
  startsWith sub s
  || match s with [] => false | _ :: r => includes r sub end.

Definition BOM : Z := 0xFEFF.

(** The text put into the [Blob]. *)
Definition blobText (content mimeType : jsstring) : jsstring :=
  if includes mimeType (str "csv") then BOM :: content else content.

(** ** The configurations the editor builds

    One step is one handler run on the configuration: a field added under
    an identifier no field has yet, a field removed, a field dragged, or
    one of the form controls of a drawn field changed.  The controls of
    the answer are drawn for a field of type [smart_answer] that has an
    [answerConfig] (line 398). *)

Inductive EditorStep (c : list ExportField) : list ExportField -> Prop :=
| StepAdd newId kind value label :
    ~ In newId (map id c) ->
    EditorStep c (Editor.addField newId c kind value label)
| StepRemove target :
    EditorStep c (Editor.removeField c target)
| StepDrag dragged index st :
    Editor.onDragEnter index (Editor.mkDrag c (Some dragged)) = Some st ->
    EditorStep c (Editor.dragConfig st)
| StepHeaderName field text :
    In field c ->
    EditorStep c (Editor.updateField c (id field) (Editor.setHeaderName text))
| StepSourceValue field text :
    In field c ->
    EditorStep c (Editor.updateField c (id field) (Editor.setSourceValue text))
| StepKeyColumn field a text :
    In field c -> type field = smart_answer -> answerConfig field = Some a ->
    EditorStep c
      (Editor.updateField c (id field)
         (Editor.setAnswerConfig (Editor.withKeyColumn a text)))
| StepOutputMode field a mode :
    In field c -> type field = smart_answer -> answerConfig field = Some a ->
    EditorStep c
      (Editor.updateField c (id field)
         (Editor.setAnswerConfig (Editor.withOutputMode a mode)))
| StepOptionSlot field a i text a' :
    In field c -> type field = smart_answer -> answerConfig field = Some a ->
    (i < 4)%nat -> Editor.withOptionSlot a i text = Some a' ->
    EditorStep c
      (Editor.updateField c (id field) (Editor.setAnswerConfig a')).

(** What the editor reaches from the empty configuration or from a
    suggested one. *)
Inductive Reachable : list ExportField -> Prop :=
| ReachEmpty : Reachable []
| ReachSuggested response : Reachable (Suggest.autoSuggest response)
| ReachStep c c' : Reachable c -> EditorStep c c' -> Reachable c'.

(** ** Further invariants and auxiliary predicates *)

(** The characters a header name must not hold to be one cell of the
    unquoted header line. *)
Definition plainUnit (c : Z) : bool :=
  negb ((c =? DQUOTE) || (c =? COMMA) || (c =? LF) || (c =? CR)).

Definition plainText (s : jsstring) : bool := forallb plainUnit s.

(** A field has an [answerConfig] exactly when it is a smart answer, and
    then with four option slots. *)
Definition shapely (f : ExportField) : Prop :=
  match type f, answerConfig f with
  | smart_answer, Some a => List.length (optionIndices a) = 4%nat
  | smart_answer, None => False
  | _, Some _ => False
  | _, None => True
  end.

Definition editorInvariant (c : list ExportField) : Prop :=
  NoDup (map id c) /\ Forall shapely c.




Module EmitInv.
Import Csv.

(** Two states of the scan that differ at most by one unit [w] at the
    head of the cell. *)
Definition aheadBy (w : Z) (s1 s2 : scan) : Prop :=
  result s1 = result s2 /\ row s1 = row s2 /\ inQuotes s1 = inQuotes s2
  /\ (cell s1 = cell s2 \/ cell s1 = w :: cell s2).

(** A text (first component) that the loop scans, from an empty cell
    outside quotes, into the cell content of the second component. *)
Definition scansAs (p : jsstring * jsstring) : Prop :=
  forall res rw rest,
    nextIs DQUOTE (hd_error rest) = false ->
    run (fst p ++ rest) (Scan res rw [] false)
    = run rest (Scan res rw (snd p) false).

(** The row the parser makes of a line of cells: a line without any cell
    is scanned as one empty cell. *)
Definition cellsOrBlank (vs : list jsstring) : list jsstring :=
  match vs with [] => [[]] | _ :: _ => map trim vs end.

End EmitInv.

(** * Properties *)

(** Boolean comparisons on code units, decided case by case. *)
Ltac zcases :=
  repeat match goal with
         | |- context [?a <=? ?b] => destruct (Z.leb_spec a b)
         | |- context [?a <? ?b] => destruct (Z.ltb_spec a b)
         | |- context [?a =? ?b] => destruct (Z.eqb_spec a b)
         end;
  simpl; try reflexivity; try discriminate; try lia.

Ltac zhyps :=
  repeat match goal with
         | H : _ && _ = true |- _ => apply andb_prop in H; destruct H
         | H : _ || _ = false |- _ => apply orb_false_elim in H; destruct H
         | H : (_ <=? _) = true |- _ => apply Z.leb_le in H
         | H : (_ <=? _) = false |- _ => apply Z.leb_gt in H
         | H : (_ <? _) = true |- _ => apply Z.ltb_lt in H
         | H : (_ <? _) = false |- _ => apply Z.ltb_ge in H
         | H : (_ =? _) = true |- _ => apply Z.eqb_eq in H
         | H : (_ =? _) = false |- _ => apply Z.eqb_neq in H
         end.

(** ** Trimming *)

Lemma trimStart_clean s : startsClean (trimStart s).
Proof.
  induction s as [|c r IH]; simpl; [exact I|].
  destruct (isWhiteSpace c) eqn:E; [exact IH | exact E].
Qed.

Lemma trimStart_fixed s : startsClean s -> trimStart s = s.
Proof. destruct s as [|c r]; simpl; intros H; [reflexivity | now rewrite H]. Qed.

Lemma trimStart_split s :
  exists p, s = p ++ trimStart s /\ forallb isWhiteSpace p = true.
Proof.
  induction s as [|c r (p & Hs & Hp)]; simpl.
  - now exists [].
  - destruct (isWhiteSpace c) eqn:E.
    + exists (c :: p); simpl. rewrite E, Hp. split; [now f_equal | reflexivity].
    + now exists [].
Qed.

Lemma startsClean_prefix a b : a <> [] -> startsClean (a ++ b) -> startsClean a.
Proof. destruct a; [congruence | trivial]. Qed.

Lemma trimEnd_keeps_start s : startsClean s -> startsClean (trimEnd s).
Proof.
  intros H. unfold trimEnd.
  destruct (trimStart_split (rev s)) as (p & Hs & _).
  destruct (trimStart (rev s)) as [|c t] eqn:E; [exact I|].
  apply (f_equal (@rev Z)) in Hs. rewrite rev_involutive, rev_app_distr in Hs.
  apply startsClean_prefix with (b := rev p); [|now rewrite <- Hs].
  simpl. now destruct (rev t).
Qed.

Lemma trim_starts_clean s : startsClean (trim s).
Proof. apply trimEnd_keeps_start, trimStart_clean. Qed.

Lemma trim_ends_clean s : startsClean (rev (trim s)).
Proof. unfold trim, trimEnd. rewrite rev_involutive. apply trimStart_clean. Qed.

Lemma trim_fixed s : startsClean s -> startsClean (rev s) -> trim s = s.
Proof.
  intros H1 H2. unfold trim, trimEnd.
  rewrite (trimStart_fixed s H1), (trimStart_fixed _ H2).
  apply rev_involutive.
Qed.

Lemma trim_idempotent s : trim (trim s) = trim s.
Proof. apply trim_fixed; [apply trim_starts_clean | apply trim_ends_clean]. Qed.

Lemma trimStart_all_white p : forallb isWhiteSpace p = true -> trimStart p = [].
Proof.
  induction p as [|c r IH]; simpl; [reflexivity|].
  destruct (isWhiteSpace c); [exact IH | discriminate].
Qed.

Lemma trimEnd_snoc_white s c : isWhiteSpace c = true -> trimEnd (s ++ [c]) = trimEnd s.
Proof.
  intros H. unfold trimEnd. rewrite rev_app_distr. simpl. now rewrite H.
Qed.

Lemma trimStart_snoc s c :
  isWhiteSpace c = true ->
  trimStart (s ++ [c]) = [] /\ trimStart s = []
  \/ trimStart (s ++ [c]) = trimStart s ++ [c].
Proof.
  intros H. induction s as [|d r IH]; simpl.
  - rewrite H. now left.
  - destruct (isWhiteSpace d); [exact IH | now right].
Qed.

Lemma trim_snoc_white s c : isWhiteSpace c = true -> trim (s ++ [c]) = trim s.
Proof.
  intros H. unfold trim.
  destruct (trimStart_snoc s c H) as [[-> ->] | ->]; [reflexivity|].
  now apply trimEnd_snoc_white.
Qed.

(** ** The scanning loop *)

Module CsvFacts.
Import Csv CsvInv.

Lemma run_single st c : run [c] st = fst (step st c None).
Proof.
  simpl. destruct (step st c None) as [st' skip]. now destruct skip.
Qed.

Lemma run_cons2 st c d rest :
  run (c :: d :: rest) st
  = if snd (step st c (Some d))
    then run rest (fst (step st c (Some d)))
    else run (d :: rest) (fst (step st c (Some d))).
Proof.
  change (run (c :: d :: rest) st)
    with (let '(st', skip) := step st c (Some d) in
          match skip, d :: rest with
          | true, _ :: rest' => run rest' st'
          | _, _ => run (d :: rest) st'
          end).
  destruct (step st c (Some d)) as [st' skip]. now destruct skip.
Qed.

(** Induction over the loop: it consumes one or two units per iteration. *)
Lemma run_invariant (P : scan -> Prop) :
  (forall st c n, P st -> P (fst (step st c n))) ->
  forall text st, P st -> P (run text st).
Proof.
  intros Hstep text.
  assert (H : forall n text, (List.length text <= n)%nat ->
                             forall st, P st -> P (run text st)).
  { induction n as [|n IH]; intros [|c rest] Hlen st Hst;
      try exact Hst; simpl in Hlen; try lia.
    destruct rest as [|d rest'].
    - rewrite run_single. now apply Hstep.
    - rewrite run_cons2.
      destruct (snd (step st c (Some d)));
        (apply IH; [simpl in *; lia | now apply Hstep]). }
  intros st. apply (H (List.length text)). lia.
Qed.

Lemma step_cellsTrimmed st c n :
  cellsTrimmed st -> cellsTrimmed (fst (step st c n)).
Proof.
  intros [Hres Hrow]. unfold step.
  assert (Hrow' : Forall Trimmed (row st ++ [trim (cell st)])).
  { apply Forall_app; split; [exact Hrow|].
    constructor; [apply trim_idempotent | constructor]. }
  repeat match goal with
         | |- context [if ?b then _ else _] => destruct b
         end; simpl; split; simpl; auto;
    try (apply Forall_app; split; auto).
Qed.

Lemma parseCSV_cells_trimmed text r :
  In r (parseCSV text) -> Forall Trimmed r.
Proof.
  unfold parseCSV. destruct (isEmpty text); [intros []|].
  intros Hin. apply filter_In in Hin. destruct Hin as [Hin _].
  assert (Hst : cellsTrimmed (run text start)).
  { apply run_invariant; [apply step_cellsTrimmed|].
    split; constructor. }
  destruct Hst as [Hres Hrow]. unfold flush in Hin.
  assert (Hall : Forall (Forall Trimmed)
                   (result (run text start)
                    ++ [row (run text start) ++ [trim (cell (run text start))]])).
  { apply Forall_app; split; [exact Hres|]. constructor; [|constructor].
    apply Forall_app; split; [exact Hrow|].
    constructor; [apply trim_idempotent | constructor]. }
  rewrite Forall_forall in Hall, Hres.
  destruct (_ || _); [now apply Hall | now apply Hres].
Qed.

(** The state after an iteration does not depend on the unit ahead,
    unless that unit is a double quote. *)
Lemma step_state_ahead st c n n' :
  nextIs DQUOTE n = nextIs DQUOTE n' ->
  fst (step st c n) = fst (step st c n').
Proof.
  intros H. unfold step. rewrite H.
  repeat match goal with
         | |- context [if ?b then _ else _] => destruct b
         end; reflexivity.
Qed.

(** A line feed added at the end of the text is either swallowed by a
    carriage return before it, or scanned as one more unit. *)
Lemma run_snoc_LF text :
  forall st,
    run (text ++ [LF]) st = run text st
    \/ run (text ++ [LF]) st = fst (step (run text st) LF None).
Proof.
  assert (H : forall n text, (List.length text <= n)%nat -> forall st,
    run (text ++ [LF]) st = run text st
    \/ run (text ++ [LF]) st = fst (step (run text st) LF None)).
  { induction n as [|n IH]; intros [|c rest] Hlen st; simpl in Hlen; try lia.
    - right. apply run_single.
    - right. apply run_single.
    - destruct rest as [|d rest'].
      + change ([c] ++ [LF]) with [c; LF].
        rewrite run_cons2, !run_single.
        rewrite (step_state_ahead st c (Some LF) None eq_refl).
        destruct (snd (step st c (Some LF))); [now left | now right].
      + change ((c :: d :: rest') ++ [LF]) with (c :: d :: (rest' ++ [LF])).
        rewrite !run_cons2.
        destruct (snd (step st c (Some d))).
        * apply IH. simpl in Hlen. lia.
        * apply (IH (d :: rest')). simpl in Hlen |- *. lia. }
  intros st. apply (H (List.length text)). lia.
Qed.

Lemma run_cons_noskip st c rest :
  snd (step st c (hd_error rest)) = false ->
  run (c :: rest) st = run rest (fst (step st c (hd_error rest))).
Proof.
  intros H. simpl. destruct (step st c (hd_error rest)) as [st' skip].
  simpl in *. subst skip. reflexivity.
Qed.

Lemma keepRow_blank : filter keepRow [[trim []]] = [].
Proof. reflexivity. Qed.

(** Scanning one more line feed changes nothing that survives the final
    filter. *)
Lemma flush_step_LF st :
  filter keepRow (flush (fst (step st LF None))) = filter keepRow (flush st).
Proof.
  destruct st as [res rw cl q]. unfold step, flush. simpl.
  destruct q; simpl.
  - replace (isEmpty (cl ++ [LF])) with false by now destruct cl.
    simpl. rewrite (trim_snoc_white cl LF eq_refl).
    destruct cl as [|c cl']; simpl; [|reflexivity].
    destruct rw as [|r rw']; simpl.
    + now rewrite filter_app, keepRow_blank, app_nil_r.
    + reflexivity.
  - replace (0 <? Z.of_nat (List.length (rw ++ [trim cl]))) with true.
    2:{ symmetry. apply Z.ltb_lt. rewrite length_app. simpl. lia. }
    simpl.
    destruct cl as [|c cl']; simpl; [|reflexivity].
    destruct rw as [|r rw']; simpl.
    + now rewrite filter_app, keepRow_blank, app_nil_r.
    + reflexivity.
Qed.

(** Inside quotes, the escaped text of a cell and its closing quote are
    scanned back into the cell. *)
Lemma run_quoted s :
  forall st, inQuotes st = true ->
    run (doubleQuotes s ++ [DQUOTE]) st
    = Scan (result st) (row st) (cell st ++ s) false.
Proof.
  induction s as [|c r IH]; intros [res rw cl q] Hq; simpl in Hq; subst q.
  - simpl doubleQuotes. simpl app at 1. rewrite run_single.
    unfold step. simpl. now rewrite app_nil_r.
  - simpl doubleQuotes. destruct (Z.eqb_spec c DQUOTE) as [->|Hc].
    + change (([DQUOTE; DQUOTE] ++ doubleQuotes r) ++ [DQUOTE])
        with (DQUOTE :: DQUOTE :: (doubleQuotes r ++ [DQUOTE])).
      rewrite run_cons2. unfold step at 1 2. simpl.
      rewrite IH by reflexivity. simpl. now rewrite <- app_assoc.
    + change (([c] ++ doubleQuotes r) ++ [DQUOTE])
        with (c :: (doubleQuotes r ++ [DQUOTE])).
      assert (Hs : forall n, step (Scan res rw cl true) c n
                             = (Scan res rw (cl ++ [c]) true, false)).
      { intros n. unfold step. simpl.
        destruct (Z.eqb_spec c DQUOTE); [contradiction | reflexivity]. }
      rewrite run_cons_noskip by now rewrite Hs.
      rewrite Hs. simpl fst. rewrite IH by reflexivity.
      simpl. now rewrite <- app_assoc.
Qed.

Lemma parseCSV_quoteCell s :
  parseCSV (quoteCell s) = if isEmpty (trim s) then [] else [[trim s]].
Proof.
  unfold parseCSV, quoteCell.
  change ([DQUOTE] ++ doubleQuotes s ++ [DQUOTE])
    with (DQUOTE :: (doubleQuotes s ++ [DQUOTE])).
  cbn [isEmpty].
  rewrite run_cons_noskip by reflexivity.
  change (fst (step start DQUOTE (hd_error (doubleQuotes s ++ [DQUOTE]))))
    with (Scan [] [] [] true).
  rewrite run_quoted by reflexivity.
  unfold flush. cbn [result row cell app].
  destruct s as [|c r]; [reflexivity|].
  remember (trim (c :: r)) as t eqn:Et. clear Et.
  cbn [isEmpty negb orb app filter]. unfold keepRow.
  cbn [existsb List.length]. rewrite orb_false_r.
  now destruct t.
Qed.

End CsvFacts.

(** ** The codec *)

Module JsonFacts.
Import Json JsonWf JsonInv.

Lemma jsstring_eqb_eq a b : jsstring_eqb a b = true <-> a = b.
Proof.
  revert b. induction a as [|x a IH]; intros [|y b]; simpl; split;
    try reflexivity; try discriminate.
  - intros H. apply andb_prop in H. destruct H as [H1 H2].
    apply Z.eqb_eq in H1. apply IH in H2. now subst.
  - intros [= -> ->]. rewrite Z.eqb_refl. now apply IH.
Qed.

(** *** Strings *)

Lemma hexValue_hexUnit n : 0 <= n < 16 -> hexValue (hexUnit n) = Some n.
Proof.
  intros H. unfold hexUnit, hexValue.
  destruct (Z.ltb_spec n 10).
  - replace ((48 <=? 48 + n) && (48 + n <=? 57)) with true by (symmetry; zcases).
    f_equal. lia.
  - replace ((48 <=? 87 + n) && (87 + n <=? 57)) with false by (symmetry; zcases).
    replace ((97 <=? 87 + n) && (87 + n <=? 102)) with true by (symmetry; zcases).
    f_equal. lia.
Qed.

Lemma parseChars_unicodeEscape c rest :
  isCodeUnit c = true ->
  parseChars (unicodeEscape c ++ rest) = consChars c (parseChars rest).
Proof.
  intros Hc. unfold isCodeUnit in Hc. zhyps.
  unfold unicodeEscape.
  change ([92; 117; hexUnit (c / 4096); hexUnit ((c / 256) mod 16);
           hexUnit ((c / 16) mod 16); hexUnit (c mod 16)] ++ rest)
    with (92 :: 117 :: hexUnit (c / 4096) :: hexUnit ((c / 256) mod 16)
          :: hexUnit ((c / 16) mod 16) :: hexUnit (c mod 16) :: rest).
  cbn [parseChars]. cbn [Z.eqb Pos.eqb DQUOTE].
  rewrite !hexValue_hexUnit by (Z.div_mod_to_equations; lia).
  replace (4096 * (c / 4096) + 256 * ((c / 256) mod 16)
           + 16 * ((c / 16) mod 16) + c mod 16) with c
    by (Z.div_mod_to_equations; lia).
  reflexivity.
Qed.

Lemma parseChars_raw c rest :
  32 <= c -> c <> 34 -> c <> 92 ->
  parseChars (c :: rest) = consChars c (parseChars rest).
Proof.
  intros H1 H2 H3. cbn [parseChars]. unfold DQUOTE.
  destruct (Z.eqb_spec c 34); [contradiction|].
  destruct (Z.eqb_spec c 92); [contradiction|].
  destruct (Z.ltb_spec c 32); [lia|]. reflexivity.
Qed.

Lemma parseChars_escapeUnit c rest :
  isCodeUnit c = true ->
  parseChars (escapeUnit c ++ rest) = consChars c (parseChars rest).
Proof.
  intros Hc. unfold escapeUnit.
  destruct (Z.eqb_spec c 8) as [->|]; [reflexivity|].
  destruct (Z.eqb_spec c 9) as [->|]; [reflexivity|].
  destruct (Z.eqb_spec c 10) as [->|]; [reflexivity|].
  destruct (Z.eqb_spec c 12) as [->|]; [reflexivity|].
  destruct (Z.eqb_spec c 13) as [->|]; [reflexivity|].
  destruct (Z.eqb_spec c 34) as [->|]; [reflexivity|].
  destruct (Z.eqb_spec c 92) as [->|]; [reflexivity|].
  destruct (Z.ltb_spec c 32).
  - now apply parseChars_unicodeEscape.
  - now apply parseChars_raw.
Qed.

(** What QuoteJSONString writes between the quotes reads back as the
    string. *)
Lemma parseChars_quoteUnits s :
  forall rest, wfString s = true ->
    parseChars (quoteUnits s ++ DQUOTE :: rest) = Some (s, rest).
Proof.
  assert (H : forall n s, (List.length s <= n)%nat -> forall rest,
             wfString s = true ->
             parseChars (quoteUnits s ++ DQUOTE :: rest) = Some (s, rest)).
  { induction n as [|n IH]; intros [|c r] Hlen rest Hwf; simpl in Hlen;
      try lia; try reflexivity.
    unfold wfString in Hwf. simpl in Hwf. apply andb_prop in Hwf.
      destruct Hwf as [Hc Hr]. cbn [quoteUnits].
      destruct (isHighSurrogate c) eqn:Hhigh.
      + destruct r as [|d r'].
        * rewrite parseChars_unicodeEscape by exact Hc. reflexivity.
        * destruct (isLowSurrogate d) eqn:Hlow.
          -- simpl in Hr. apply andb_prop in Hr. destruct Hr as [Hd Hr'].
             unfold isHighSurrogate in Hhigh. unfold isLowSurrogate in Hlow.
             zhyps.
             change ((c :: d :: quoteUnits r') ++ DQUOTE :: rest)
               with (c :: d :: (quoteUnits r' ++ DQUOTE :: rest)).
             rewrite parseChars_raw by lia. rewrite parseChars_raw by lia.
             rewrite IH; [reflexivity | simpl in Hlen; lia | exact Hr'].
          -- rewrite <- app_assoc, parseChars_unicodeEscape by exact Hc.
             rewrite IH; [reflexivity | lia | exact Hr].
      + destruct (isLowSurrogate c) eqn:Hlow.
        * rewrite <- app_assoc, parseChars_unicodeEscape by exact Hc.
          rewrite IH; [reflexivity | lia | exact Hr].
        * rewrite <- app_assoc, parseChars_escapeUnit by exact Hc.
          rewrite IH; [reflexivity | lia | exact Hr]. }
  intros rest. apply (H (List.length s)). lia.
Qed.

(** *** Numbers *)

Lemma units_uint_uint_units d : units_uint (uint_units d) = d.
Proof. induction d; cbn; now f_equal. Qed.

Lemma spanDigits_uint_units d rest :
  noDigitAhead rest -> spanDigits (uint_units d ++ rest) = (uint_units d, rest).
Proof.
  intros H. induction d; cbn [uint_units app spanDigits];
    try (rewrite IHd; reflexivity).
  destruct rest as [|c r]; [reflexivity|]. cbn [spanDigits].
  simpl in H. now rewrite H.
Qed.

Lemma uint_units_head d :
  d <> Decimal.Nil ->
  exists c t, uint_units d = c :: t /\ isDigit c = true.
Proof. destruct d; [congruence| ..]; intros _; eexists; eexists; split; reflexivity. Qed.

Lemma nzhead_no_zero d d' : Decimal.nzhead d <> Decimal.D0 d'.
Proof. induction d; simpl; try discriminate. exact IHd. Qed.

Lemma to_uint_normal m :
  N.to_uint m = Decimal.D0 Decimal.Nil
  \/ (N.to_uint m <> Decimal.Nil /\ forall d', N.to_uint m <> Decimal.D0 d').
Proof.
  assert (E : N.to_uint m = Decimal.unorm (N.to_uint m)).
  { rewrite <- DecimalN.Unsigned.to_of, DecimalN.Unsigned.of_to. reflexivity. }
  unfold Decimal.unorm in E.
  destruct (Decimal.nzhead (N.to_uint m)) eqn:Hn;
    try (right; rewrite E; split; [discriminate | intros d'; discriminate]).
  - left. exact E.
  - exfalso. exact (nzhead_no_zero _ _ Hn).
Qed.

Lemma uint_units_no_leading_zero m c t :
  uint_units (N.to_uint m) = c :: t -> (c =? 48) && negb (isEmpty t) = false.
Proof.
  intros H. destruct (to_uint_normal m) as [E | [_ E]].
  - rewrite E in H. injection H as <- <-. reflexivity.
  - destruct (N.to_uint m) as [|d|d|d|d|d|d|d|d|d|d]; try discriminate;
      injection H as <- <-; try reflexivity.
    now destruct (E d).
Qed.

Lemma parseFraction_follow rest : follow rest -> parseFraction rest = Some ([], rest).
Proof.
  destruct rest as [|c r]; [reflexivity|]. simpl.
  intros [-> | ->]; reflexivity.
Qed.

Lemma parseExponent_follow rest : follow rest -> parseExponent rest = Some ([], rest).
Proof.
  destruct rest as [|c r]; [reflexivity|]. simpl.
  intros [-> | ->]; reflexivity.
Qed.

Lemma follow_noDigit rest : follow rest -> noDigitAhead rest.
Proof.
  destruct rest as [|c r]; [trivial|]. simpl. intros [-> | ->]; reflexivity.
Qed.

(** The digits of a natural number, read back as a number. *)
Lemma parseUnsigned_digits m rest (minus : bool) :
  follow rest ->
  parseUnsigned minus (uint_units (N.to_uint m) ++ rest)
  = Some (JNum (if minus then - Z.of_N m else Z.of_N m), rest).
Proof.
  intros Hf. unfold parseUnsigned.
  rewrite spanDigits_uint_units by now apply follow_noDigit.
  destruct (uint_units (N.to_uint m)) as [|c t] eqn:E.
  - exfalso. destruct (to_uint_normal m) as [E' | [E' _]].
    + rewrite E' in E. discriminate.
    + destruct (uint_units_head _ E') as (c & t & E2 & _). congruence.
  - rewrite (uint_units_no_leading_zero m c t E).
    rewrite parseFraction_follow, parseExponent_follow by exact Hf.
    cbn [isEmpty andb]. rewrite <- E, units_uint_uint_units.
    now rewrite DecimalN.Unsigned.of_to.
Qed.

Lemma numberToString_head n :
  exists c t, numberToString n = c :: t /\ (c = 45 \/ isDigit c = true).
Proof.
  unfold numberToString. destruct (n <? 0).
  - eexists; eexists; split; [reflexivity | now left].
  - destruct (uint_units (N.to_uint (Z.to_N n))) as [|c t] eqn:E.
    + exfalso. destruct (to_uint_normal (Z.to_N n)) as [E' | [E' _]].
      * rewrite E' in E. discriminate.
      * destruct (uint_units_head _ E') as (c & t & E2 & _). congruence.
    + destruct (to_uint_normal (Z.to_N n)) as [E' | [E' _]].
      * rewrite E' in E. injection E as <- <-.
        eexists; eexists; split; [reflexivity | now right].
      * destruct (uint_units_head _ E') as (c' & t' & E2 & Hd).
        rewrite E in E2. injection E2 as -> ->.
        eexists; eexists; split; [reflexivity | now right].
Qed.

Lemma parseNumber_numberToString n rest :
  follow rest -> parseNumber (numberToString n ++ rest) = Some (JNum n, rest).
Proof.
  intros Hf. unfold numberToString. destruct (Z.ltb_spec n 0).
  - change ((45 :: uint_units (N.to_uint (Z.to_N (- n)))) ++ rest)
      with (45 :: (uint_units (N.to_uint (Z.to_N (- n))) ++ rest)).
    unfold parseNumber. cbn [Z.eqb Pos.eqb].
    rewrite (parseUnsigned_digits (Z.to_N (- n)) rest true Hf).
    rewrite Z2N.id by lia. now rewrite Z.opp_involutive.
  - destruct (numberToString_head n) as (c & t & E & Hc).
    unfold numberToString in E.
    replace (n <? 0) with false in E by (symmetry; zcases).
    destruct Hc as [-> | Hc].
    + exfalso.
      destruct (to_uint_normal (Z.to_N n)) as [E' | [E' _]].
      * rewrite E' in E. discriminate.
      * destruct (uint_units_head _ E') as (c' & t' & E2 & Hd).
        rewrite E in E2. injection E2 as <- <-. discriminate.
    + pose proof (parseUnsigned_digits (Z.to_N n) rest false Hf) as Hp.
      rewrite Z2N.id in Hp by lia.
      unfold parseNumber. rewrite E in *. cbn [app]. cbn [app] in Hp.
      unfold isDigit in Hc.
      destruct (Z.eqb_spec c 45); [subst; discriminate | exact Hp].
Qed.

(** *** Values *)

(** Induction over values, with the hypothesis on every item of an array
    and every member of an object. *)
Lemma json_nested_ind (P : json -> Prop) :
  P JNull ->
  (forall b, P (JBool b)) ->
  (forall n, P (JNum n)) ->
  (forall lit, P (JNumeral lit)) ->
  (forall s, P (JStr s)) ->
  (forall items, Forall P items -> P (JArr items)) ->
  (forall props, Forall (fun p => P (snd p)) props -> P (JObj props)) ->
  forall v, P v.
Proof.
  intros HNull HBool HNum HNumeral HStr HArr HObj.
  fix IH 1. intros [| b | n | lit | s | items | props].
  - exact HNull.
  - apply HBool.
  - apply HNum.
  - apply HNumeral.
  - apply HStr.
  - apply HArr. induction items as [|x l IHl]; constructor; [apply IH | exact IHl].
  - apply HObj. induction props as [|p l IHl]; constructor; [apply IH | exact IHl].
Qed.

Lemma skipWs_app w s : allWs w -> skipWs (w ++ s) = skipWs s.
Proof.
  unfold allWs. induction w as [|c w IH]; simpl; [reflexivity|].
  intros H. apply andb_prop in H. destruct H as [Hc Hw].
  rewrite Hc. now apply IH.
Qed.

Lemma skipWs_token c s : isJsonWs c = false -> skipWs (c :: s) = c :: s.
Proof. intros H. simpl. now rewrite H. Qed.

Lemma allWs_app a b : allWs a -> allWs b -> allWs (a ++ b).
Proof. unfold allWs. intros Ha Hb. now rewrite forallb_app, Ha, Hb. Qed.

Lemma allWs_gap : allWs gap.
Proof. reflexivity. Qed.

Lemma join_cons2 sep (a b : jsstring) l :
  join sep (a :: b :: l) = a ++ sep ++ join sep (b :: l).
Proof. reflexivity. Qed.

(** The first unit of a printed value starts a token, and closes
    neither an array nor an object. *)
Lemma serialize_head indent v :
  wf v = true ->
  exists c t, serialize indent v = c :: t
              /\ isJsonWs c = false /\ c <> 93 /\ c <> 125.
Proof.
  destruct v as [| [|] | n | lit | s | [|x l] | [|p l]]; cbn [wf serialize];
    intros Hwf; try discriminate;
    try (eexists; eexists; split; [reflexivity | repeat split; discriminate]).
  destruct (numberToString_head n) as (c & t & E & [-> | Hc]).
  - exists 45, t. repeat split; [exact E | discriminate | discriminate].
  - exists c, t. unfold isDigit in Hc. zhyps.
    repeat split; [exact E | unfold isJsonWs; zcases | lia | lia].
Qed.

Ltac lens :=
  unfold jsstring in *;
  repeat first [rewrite length_app in * | progress cbn [List.length] in *];
  lia.

Lemma parseElements_join indent stepback items :
  allWs indent -> allWs stepback ->
  Forall parsesBack items -> forallb wf items = true -> items <> [] ->
  forall acc w rest fuel,
    allWs w ->
    (2 * List.length (w ++ join (COMMA :: LF :: indent) (map (serialize indent) items)
                        ++ [LF] ++ stepback ++ [93] ++ rest)%Z + 1 < fuel)%nat ->
    parseElements fuel
      (w ++ join (COMMA :: LF :: indent) (map (serialize indent) items)
         ++ [LF] ++ stepback ++ [93] ++ rest) acc
    = Some (JArr (acc ++ items), rest).
Proof.
  intros Hind Hstep HP. induction HP as [|x l Hx Hl IH]; intros Hwf Hne;
    [congruence|].
  cbn [forallb] in Hwf. apply andb_prop in Hwf. destruct Hwf as [Hwx Hwl].
  intros acc w rest fuel Hw Hfuel.
  destruct fuel as [|fuel]; [lia|]. cbn [parseElements].
  destruct l as [|y l'].
  - cbn [map join] in *.
    rewrite (Hx Hwx indent w ([LF] ++ stepback ++ [93] ++ rest) fuel Hind Hw);
      [| right; reflexivity | lia].
    change ([LF] ++ stepback ++ [93] ++ rest) with (([LF] ++ stepback) ++ 93 :: rest).
    rewrite <- app_assoc.
    change ([LF] ++ stepback ++ 93 :: rest) with ((LF :: stepback) ++ 93 :: rest).
    rewrite skipWs_app, skipWs_token by
      (try reflexivity; unfold allWs in *; cbn [forallb]; now rewrite Hstep).
    reflexivity.
  - cbn [map] in *. rewrite join_cons2 in *.
    rewrite <- !app_assoc in *.
    rewrite (Hx Hwx indent w _ fuel Hind Hw); [| left; reflexivity | lia].
    cbn [app]. rewrite skipWs_token by reflexivity.
    cbn [Z.eqb Pos.eqb COMMA].
    replace (acc ++ x :: y :: l') with ((acc ++ [x]) ++ y :: l')
      by now rewrite <- app_assoc.
    refine (IH Hwl _ (acc ++ [x]) (LF :: indent) rest fuel _ _).
    + discriminate.
    + unfold allWs in *. cbn [forallb]. now rewrite Hind.
    + lens.
Qed.

Lemma setProp_fresh k x acc :
  ~ In k (map fst acc) -> setProp k x acc = acc ++ [(k, x)].
Proof.
  induction acc as [|[k' x'] acc IH]; simpl; intros H; [reflexivity|].
  destruct (jsstring_eqb k' k) eqn:E.
  - apply jsstring_eqb_eq in E. exfalso. apply H. now left.
  - f_equal. apply IH. intros Hin. apply H. now right.
Qed.

Lemma distinct_NoDup l : distinct l = true -> NoDup l.
Proof.
  induction l as [|k r IH]; simpl; intros H; [constructor|].
  apply andb_prop in H. destruct H as [Hk Hr]. constructor; [|now apply IH].
  intros Hin. apply negb_true_iff in Hk.
  assert (Hex : existsb (jsstring_eqb k) r = true).
  { apply existsb_exists. exists k. split; [exact Hin | now apply jsstring_eqb_eq]. }
  congruence.
Qed.

Lemma parseMembers_join indent stepback props :
  allWs indent -> allWs stepback ->
  Forall (fun p => parsesBack (snd p)) props ->
  forallb (fun p => match p with (k, x) => wfString k && wf x end) props = true ->
  props <> [] ->
  forall acc w rest fuel,
    allWs w -> NoDup (map fst (acc ++ props)) ->
    (2 * List.length (w ++ join (COMMA :: LF :: indent) (map (memberText indent) props)
                        ++ [LF] ++ stepback ++ [125] ++ rest)%Z + 1 < fuel)%nat ->
    parseMembers fuel
      (w ++ join (COMMA :: LF :: indent) (map (memberText indent) props)
         ++ [LF] ++ stepback ++ [125] ++ rest) acc
    = Some (JObj (acc ++ props), rest).
Proof.
  intros Hind Hstep HP. induction HP as [|[k x] l Hx Hl IH]; intros Hwf Hne;
    [congruence|].
  cbn [forallb] in Hwf. apply andb_prop in Hwf. destruct Hwf as [Hwx Hwl].
  apply andb_prop in Hwx. destruct Hwx as [Hwk Hwx]. cbn [snd] in Hx.
  intros acc w rest fuel Hw Hnd Hfuel.
  assert (Hfresh : ~ In k (map fst acc)).
  { rewrite map_app in Hnd. cbn [map fst] in Hnd.
    apply NoDup_remove_2 in Hnd. intros Hin. apply Hnd.
    apply in_or_app. now left. }
  destruct fuel as [|fuel]; [lia|]. cbn [parseMembers].
  destruct l as [|q l'].
  - cbn [map join memberText] in *. unfold quoteJSONString in *.
    rewrite <- !app_assoc in *. cbn [app] in *.
    rewrite skipWs_app, skipWs_token by (try reflexivity; exact Hw).
    cbn [Z.eqb Pos.eqb DQUOTE].
    rewrite (parseChars_quoteUnits k _ Hwk).
    rewrite skipWs_token by reflexivity. cbn [Z.eqb Pos.eqb].
    assert (Hv : parseValue fuel
                   ([32] ++ serialize indent x ++ LF :: stepback ++ 125 :: rest)
                 = Some (x, LF :: stepback ++ 125 :: rest)).
    { apply (Hx Hwx indent [32] _ fuel Hind);
        [reflexivity | right; reflexivity | lens]. }
    cbn [app] in Hv. rewrite Hv.
    change (LF :: stepback ++ 125 :: rest) with ((LF :: stepback) ++ 125 :: rest).
    rewrite skipWs_app, skipWs_token by
      (try reflexivity; unfold allWs in *; cbn [forallb]; now rewrite Hstep).
    cbn [Z.eqb Pos.eqb COMMA]. now rewrite setProp_fresh.
  - cbn [map] in *. rewrite join_cons2 in *.
    cbn [memberText] in *. unfold quoteJSONString in *.
    rewrite <- !app_assoc in *. cbn [app] in *.
    rewrite skipWs_app, skipWs_token by (try reflexivity; exact Hw).
    cbn [Z.eqb Pos.eqb DQUOTE].
    rewrite (parseChars_quoteUnits k _ Hwk).
    rewrite skipWs_token by reflexivity. cbn [Z.eqb Pos.eqb].
    match goal with
    | |- context [parseValue fuel (32 :: serialize indent x ++ ?tail)] =>
        assert (Hv : parseValue fuel ([32] ++ serialize indent x ++ tail)
                     = Some (x, tail))
          by (apply (Hx Hwx indent [32] _ fuel Hind);
              [reflexivity | left; reflexivity | lens]);
        cbn [app] in Hv; rewrite Hv
    end.
    rewrite skipWs_token by reflexivity.
    cbn [Z.eqb Pos.eqb COMMA]. rewrite setProp_fresh by exact Hfresh.
    replace (acc ++ (k, x) :: q :: l') with ((acc ++ [(k, x)]) ++ q :: l')
      by now rewrite <- app_assoc.
    refine (IH Hwl _ (acc ++ [(k, x)]) (LF :: indent) rest fuel _ _ _).
    + discriminate.
    + unfold allWs in *. cbn [forallb]. now rewrite Hind.
    + now rewrite <- app_assoc.
    + lens.
Qed.

(** Every well-formed value is read back from its printed form. *)
Lemma parseValue_serialize v : parsesBack v.
Proof.
  induction v as [| b | n | lit | s | items IH | props IH] using json_nested_ind;
    intros Hwf indent w rest fuel Hind Hw Hf Hfuel;
    (destruct fuel as [|fuel]; [lia|]); cbn [parseValue].
  - cbn [serialize]. rewrite skipWs_app by exact Hw. reflexivity.
  - destruct b; cbn [serialize]; rewrite skipWs_app by exact Hw; reflexivity.
  - cbn [serialize].
    destruct (numberToString_head n) as (c & t & E & Hc).
    pose proof (parseNumber_numberToString n rest Hf) as Hp.
    rewrite E in *. cbn [app] in *.
    assert (Hws : isJsonWs c = false).
    { unfold isJsonWs, isDigit in *. destruct Hc as [-> | Hc]; [reflexivity|].
      zhyps. zcases. }
    rewrite skipWs_app, skipWs_token by assumption.
    unfold isDigit, DQUOTE in *.
    destruct Hc as [-> | Hc]; [exact Hp|]. zhyps.
    destruct (Z.eqb_spec c 91); [lia|].
    destruct (Z.eqb_spec c 123); [lia|].
    destruct (Z.eqb_spec c 34); [lia|].
    destruct (Z.eqb_spec c 110); [lia|].
    destruct (Z.eqb_spec c 116); [lia|].
    destruct (Z.eqb_spec c 102); [lia|]. exact Hp.
  - discriminate.
  - cbn [serialize wf] in *. unfold quoteJSONString.
    rewrite <- !app_assoc. cbn [app].
    rewrite skipWs_app, skipWs_token by (try reflexivity; exact Hw).
    cbn [Z.eqb Pos.eqb DQUOTE].
    now rewrite (parseChars_quoteUnits s rest Hwf).
  - cbn [wf] in Hwf. destruct items as [|x l].
    + cbn [serialize]. rewrite skipWs_app by exact Hw. reflexivity.
    + cbn [serialize] in *.
      assert (Hind' : allWs (indent ++ gap))
        by (apply allWs_app; [exact Hind | exact allWs_gap]).
      remember (indent ++ gap) as indent' eqn:Ei. clear Ei.
      assert (Hw' : allWs (LF :: indent'))
        by (unfold allWs in *; cbn [forallb]; now rewrite Hind').
      destruct (serialize_head indent' x) as (c & t & E & Hc & Hc1 & _).
      { cbn [forallb] in Hwf. now apply andb_prop in Hwf. }
      rewrite <- !app_assoc in *. cbn [app] in *.
      rewrite skipWs_app, skipWs_token by (try reflexivity; exact Hw).
      cbn [Z.eqb Pos.eqb].
      assert (Hsk : exists r',
                 skipWs (LF :: indent'
                      ++ join (COMMA :: LF :: indent')
                           (map (serialize indent') (x :: l))
                      ++ LF :: indent ++ 93 :: rest) = c :: r').
      { change (LF :: indent' ++ ?X) with ((LF :: indent') ++ X).
        rewrite skipWs_app by exact Hw'.
        destruct l as [|y l']; cbn [map join]; rewrite E;
          rewrite <- ?app_assoc; cbn [app]; rewrite skipWs_token by exact Hc;
          eexists; reflexivity. }
      destruct Hsk as (r' & Hsk). rewrite Hsk.
      destruct (Z.eqb_spec c 93); [contradiction|].
      refine (parseElements_join indent' indent (x :: l) Hind' Hind _ Hwf _
                [] (LF :: indent') rest fuel Hw' _).
      * rewrite Forall_forall in IH |- *. intros v Hv. now apply IH.
      * discriminate.
      * lens.
  - cbn [wf] in Hwf. apply andb_prop in Hwf. destruct Hwf as [Hdis Hwf].
    destruct props as [|[k x] l].
    + cbn [serialize]. rewrite skipWs_app by exact Hw. reflexivity.
    + cbn [serialize] in *.
      assert (Hind' : allWs (indent ++ gap))
        by (apply allWs_app; [exact Hind | exact allWs_gap]).
      remember (indent ++ gap) as indent' eqn:Ei. clear Ei.
      assert (Hw' : allWs (LF :: indent'))
        by (unfold allWs in *; cbn [forallb]; now rewrite Hind').
      change (fun p : jsstring * json =>
                let (k0, x0) := p in
                quoteJSONString k0 ++ [58; 32] ++ serialize indent' x0)
        with (memberText indent') in *.
      rewrite <- !app_assoc in *. cbn [app] in *.
      rewrite skipWs_app, skipWs_token by (try reflexivity; exact Hw).
      cbn [Z.eqb Pos.eqb].
      assert (Hsk : exists r',
                 skipWs (LF :: indent'
                      ++ join (COMMA :: LF :: indent')
                           (map (memberText indent') ((k, x) :: l))
                      ++ LF :: indent ++ 125 :: rest) = DQUOTE :: r').
      { change (LF :: indent' ++ ?X) with ((LF :: indent') ++ X).
        rewrite skipWs_app by exact Hw'.
        destruct l as [|y l']; cbn [map join memberText]; unfold quoteJSONString;
          rewrite <- ?app_assoc; cbn [app]; rewrite skipWs_token by reflexivity;
          eexists; reflexivity. }
      destruct Hsk as (r' & Hsk).
      match goal with
      | |- context [skipWs ?text] =>
          replace (skipWs text) with (DQUOTE :: r') by (symmetry; exact Hsk)
      end.
      cbn [Z.eqb Pos.eqb DQUOTE].
      refine (parseMembers_join indent' indent ((k, x) :: l) Hind' Hind _ Hwf _
                [] (LF :: indent') rest fuel Hw' _ _).
      * rewrite Forall_forall in IH |- *. intros v Hv. now apply IH.
      * discriminate.
      * cbn [app]. now apply distinct_NoDup.
      * lens.
Qed.

End JsonFacts.

(** *** The counter of the parser

    Every call consumes input, so the counter [parse] starts with never
    runs out: a text that parses with some counter parses with that
    one. *)

Module JsonFuel.
Import Json JsonInv.

Lemma skipWs_length s : (List.length (skipWs s) <= List.length s)%nat.
Proof.
  induction s as [|c r IH]; simpl; [lia|].
  destruct (isJsonWs c); simpl; lia.
Qed.

Lemma skipWs_cons_length s c r :
  skipWs s = c :: r -> (List.length r < List.length s)%nat.
Proof.
  intros H. pose proof (skipWs_length s) as Hl. rewrite H in Hl.
  simpl in Hl. lia.
Qed.

Lemma parseChars_length s :
  forall t r, parseChars s = Some (t, r) -> (List.length r < List.length s)%nat.
Proof.
  assert (H : forall n s, (List.length s <= n)%nat -> forall t r,
             parseChars s = Some (t, r) -> (List.length r < List.length s)%nat).
  { induction n as [|n IH]; intros [|c s'] Hlen t r Hp; simpl in Hlen;
      try lia; try discriminate.
    cbn [parseChars] in Hp.
    destruct (c =? DQUOTE).
    { injection Hp as <- <-. simpl. lia. }
    destruct (c =? 92).
    - destruct s' as [|e r1]; [discriminate|].
      destruct (e =? 117).
      + destruct r1 as [|h1 [|h2 [|h3 [|h4 r2]]]]; try discriminate.
        destruct (hexValue h1), (hexValue h2), (hexValue h3), (hexValue h4);
          try discriminate.
        destruct (parseChars r2) as [[t' r']|] eqn:E; [|discriminate].
        injection Hp as <- <-.
        apply IH in E; simpl in *; lia.
      + destruct (unescape e); [|discriminate].
        destruct (parseChars r1) as [[t' r']|] eqn:E; [|discriminate].
        injection Hp as <- <-.
        apply IH in E; simpl in *; lia.
    - destruct (c <? 32); [discriminate|].
      destruct (parseChars s') as [[t' r']|] eqn:E; [|discriminate].
      injection Hp as <- <-.
      apply IH in E; simpl in *; lia. }
  intros t r. apply (H (List.length s)). lia.
Qed.

Lemma spanDigits_length s ds r :
  spanDigits s = (ds, r) -> List.length s = (List.length ds + List.length r)%nat.
Proof.
  revert ds r. induction s as [|c s' IH]; intros ds r; cbn [spanDigits].
  - intros [= <- <-]. reflexivity.
  - destruct (isDigit c).
    + destruct (spanDigits s') as [ds' r'] eqn:E. intros [= <- <-].
      simpl. rewrite (IH ds' r' eq_refl). reflexivity.
    + intros [= <- <-]. reflexivity.
Qed.

Lemma parseFraction_length s f r :
  parseFraction s = Some (f, r) -> (List.length r <= List.length s)%nat.
Proof.
  unfold parseFraction. destruct s as [|c s']; [intros [= <- <-]; simpl; lia|].
  destruct (c =? 46).
  - destruct (spanDigits s') as [ds r'] eqn:E.
    apply spanDigits_length in E.
    destruct ds; [discriminate|]. intros [= <- <-]. simpl in *. lia.
  - intros [= <- <-]. lia.
Qed.

Lemma parseExponent_length s f r :
  parseExponent s = Some (f, r) -> (List.length r <= List.length s)%nat.
Proof.
  unfold parseExponent. destruct s as [|c s']; [intros [= <- <-]; simpl; lia|].
  destruct ((c =? 101) || (c =? 69)).
  - destruct (match s' with
              | [] => ([], s')
              | g :: r' => if (g =? 43) || (g =? 45) then ([g], r') else ([], s')
              end) as [sign r1] eqn:Es.
    assert (Hr1 : (List.length r1 <= List.length s')%nat).
    { destruct s' as [|g r']; [injection Es as <- <-; lia|].
      destruct ((g =? 43) || (g =? 45)); injection Es as <- <-; simpl; lia. }
    destruct (spanDigits r1) as [ds r'] eqn:E.
    apply spanDigits_length in E.
    destruct ds; [discriminate|]. intros [= <- <-]. simpl in *. lia.
  - intros [= <- <-]. lia.
Qed.

Lemma parseUnsigned_length minus s v r :
  parseUnsigned minus s = Some (v, r) -> (List.length r < List.length s)%nat.
Proof.
  unfold parseUnsigned. destruct (spanDigits s) as [ds s2] eqn:E.
  apply spanDigits_length in E.
  destruct ds as [|d ds]; [discriminate|].
  destruct ((d =? 48) && negb (isEmpty ds)); [discriminate|].
  destruct (parseFraction s2) as [[frac s3]|] eqn:Ef; [|discriminate].
  apply parseFraction_length in Ef.
  destruct (parseExponent s3) as [[ex s4]|] eqn:Ee; [|discriminate].
  apply parseExponent_length in Ee.
  destruct (isEmpty frac && isEmpty ex); intros [= <- <-]; simpl in *; lia.
Qed.

Lemma parseNumber_length s v r :
  parseNumber s = Some (v, r) -> (List.length r < List.length s)%nat.
Proof.
  unfold parseNumber. destruct s as [|c s']; [discriminate|].
  destruct (c =? 45); intros H; apply parseUnsigned_length in H; simpl in *; lia.
Qed.

Lemma afterWord_length w : forall s r,
  afterWord w s = Some r -> (List.length r <= List.length s)%nat.
Proof.
  induction w as [|a w IH]; intros s r; simpl.
  - intros [= <-]. lia.
  - destruct s as [|c s']; [discriminate|].
    destruct (a =? c); [|discriminate]. intros H. apply IH in H. simpl. lia.
Qed.

Lemma parse_consumes fuel : consumes fuel.
Proof.
  induction fuel as [|fuel (IHv & IHe & IHm)]; [repeat split; discriminate|].
  repeat split.
  - intros s v r. cbn [parseValue].
    destruct (skipWs s) as [|c t] eqn:Es; [discriminate|].
    pose proof (skipWs_cons_length s c t Es) as Hs.
    destruct (c =? 91).
    { destruct (skipWs t) as [|c' t'] eqn:Et; [discriminate|].
      pose proof (skipWs_cons_length t c' t' Et).
      destruct (c' =? 93); [intros [= <- <-]; lia|].
      intros Hq. apply IHe in Hq. lia. }
    destruct (c =? 123).
    { destruct (skipWs t) as [|c' t'] eqn:Et; [discriminate|].
      pose proof (skipWs_cons_length t c' t' Et).
      destruct (c' =? 125); [intros [= <- <-]; lia|].
      intros Hq. apply IHm in Hq. lia. }
    destruct (c =? DQUOTE).
    { destruct (parseChars t) as [[k r']|] eqn:Ec; [|discriminate].
      apply parseChars_length in Ec. intros [= <- <-]. lia. }
    destruct (c =? 110).
    { destruct (afterWord (str "ull") t) as [r'|] eqn:Ea; [|discriminate].
      apply afterWord_length in Ea. intros [= <- <-]. lia. }
    destruct (c =? 116).
    { destruct (afterWord (str "rue") t) as [r'|] eqn:Ea; [|discriminate].
      apply afterWord_length in Ea. intros [= <- <-]. lia. }
    destruct (c =? 102).
    { destruct (afterWord (str "alse") t) as [r'|] eqn:Ea; [|discriminate].
      apply afterWord_length in Ea. intros [= <- <-]. lia. }
    intros Hq. apply parseNumber_length in Hq. simpl in Hq. lia.
  - intros s acc v r. cbn [parseElements].
    destruct (parseValue fuel s) as [[x r1]|] eqn:Ev; [|discriminate].
    apply IHv in Ev.
    destruct (skipWs r1) as [|c r'] eqn:Es; [discriminate|].
    pose proof (skipWs_cons_length r1 c r' Es).
    destruct (c =? COMMA); [intros Hq; apply IHe in Hq; lia|].
    destruct (c =? 93); [intros [= <- <-]; lia | discriminate].
  - intros s acc v r. cbn [parseMembers].
    destruct (skipWs s) as [|q r0] eqn:Es; [discriminate|].
    pose proof (skipWs_cons_length s q r0 Es).
    destruct (q =? DQUOTE); [|discriminate].
    destruct (parseChars r0) as [[k r1]|] eqn:Ec; [|discriminate].
    apply parseChars_length in Ec.
    destruct (skipWs r1) as [|c1 r2] eqn:Es1; [discriminate|].
    pose proof (skipWs_cons_length r1 c1 r2 Es1).
    destruct (c1 =? 58); [|discriminate].
    destruct (parseValue fuel r2) as [[x r3]|] eqn:Ev; [|discriminate].
    apply IHv in Ev.
    destruct (skipWs r3) as [|c r'] eqn:Es3; [discriminate|].
    pose proof (skipWs_cons_length r3 c r' Es3).
    destruct (c =? COMMA); [intros Hq; apply IHm in Hq; lia|].
    destruct (c =? 125); [intros [= <- <-]; lia | discriminate].
Qed.

Lemma parse_adequate fuel : adequate fuel.
Proof.
  induction fuel as [|fuel (IHv & IHe & IHm)]; [repeat split; discriminate|].
  destruct (parse_consumes fuel) as (Cv & Ce & Cm).
  repeat split.
  - intros s x Hq fuel' Hf. destruct fuel' as [|fuel']; [lia|].
    cbn [parseValue] in *.
    destruct (skipWs s) as [|c t] eqn:Es; [discriminate|].
    pose proof (skipWs_cons_length s c t Es) as Hs.
    destruct (c =? 91).
    { destruct (skipWs t) as [|c' t'] eqn:Et; [discriminate|].
      destruct (c' =? 93); [exact Hq|]. apply IHe; [exact Hq | lia]. }
    destruct (c =? 123).
    { destruct (skipWs t) as [|c' t'] eqn:Et; [discriminate|].
      destruct (c' =? 125); [exact Hq|]. apply IHm; [exact Hq | lia]. }
    exact Hq.
  - intros s acc x Hq fuel' Hf. destruct fuel' as [|fuel']; [lia|].
    cbn [parseElements] in *.
    destruct (parseValue fuel s) as [[v r1]|] eqn:Ev; [|discriminate].
    rewrite (IHv s (v, r1) Ev fuel') by lia.
    apply Cv in Ev.
    destruct (skipWs r1) as [|c r'] eqn:Es; [discriminate|].
    pose proof (skipWs_cons_length r1 c r' Es).
    destruct (c =? COMMA); [|exact Hq]. apply IHe; [exact Hq | lia].
  - intros s acc x Hq fuel' Hf. destruct fuel' as [|fuel']; [lia|].
    cbn [parseMembers] in *.
    destruct (skipWs s) as [|q r0] eqn:Es; [discriminate|].
    pose proof (skipWs_cons_length s q r0 Es).
    destruct (q =? DQUOTE); [|discriminate].
    destruct (parseChars r0) as [[k r1]|] eqn:Ec; [|discriminate].
    apply parseChars_length in Ec.
    destruct (skipWs r1) as [|c1 r2] eqn:Es1; [discriminate|].
    pose proof (skipWs_cons_length r1 c1 r2 Es1).
    destruct (c1 =? 58); [|discriminate].
    destruct (parseValue fuel r2) as [[v r3]|] eqn:Ev; [|discriminate].
    rewrite (IHv r2 (v, r3) Ev fuel') by lia.
    apply Cv in Ev.
    destruct (skipWs r3) as [|c r'] eqn:Es3; [discriminate|].
    pose proof (skipWs_cons_length r3 c r' Es3).
    destruct (c =? COMMA); [|exact Hq]. apply IHm; [exact Hq | lia].
Qed.

Lemma parse_complete text :
  wellFormed text -> exists v, parse text = Some v.
Proof.
  intros (fuel & v & rest & Hp & Hr). exists v. unfold parse.
  destruct (parse_adequate fuel) as (Hv & _).
  rewrite (Hv text (v, rest) Hp) by lia. now rewrite Hr.
Qed.

Lemma parse_sound text v : parse text = Some v -> wellFormed text.
Proof.
  unfold parse.
  destruct (parseValue _ text) as [[v' rest]|] eqn:Hp; [|discriminate].
  destruct (skipWs rest) eqn:Hr; [|discriminate]. intros _.
  now exists (2 * List.length text + 1)%nat, v', rest.
Qed.

End JsonFuel.

(** ** Configurations through the codec *)

Lemma parse_stringify (v : Json.json) :
  JsonWf.wf v = true -> Json.parse (Json.stringify v) = Some v.
Proof.
  intros Hwf. unfold Json.parse, Json.stringify.
  pose proof (JsonFacts.parseValue_serialize v Hwf [] [] []
                (2 * List.length (Json.serialize [] v) + 1)%nat
                eq_refl eq_refl I) as H.
  cbn [app] in H. rewrite app_nil_r in H. rewrite H by lia. reflexivity.
Qed.

Lemma wf_value_json v : wfValue v = true -> JsonWf.wf (value_json v) = true.
Proof. destruct v; simpl; auto. Qed.

Lemma wf_answerConfig_json a :
  wfAnswer a = true -> JsonWf.wf (answerConfig_json a) = true.
Proof.
  unfold wfAnswer. intros H. apply andb_prop in H. destruct H as [Hk Ho].
  unfold answerConfig_json. cbn [JsonWf.wf map fst forallb].
  rewrite (wf_value_json _ Hk).
  assert (Hopt : forallb JsonWf.wf (map value_json (optionIndices a)) = true).
  { rewrite forallb_forall in Ho |- *. intros x Hx.
    apply in_map_iff in Hx. destruct Hx as (v & <- & Hv).
    apply wf_value_json. now apply Ho. }
  rewrite Hopt. now destruct (outputMode a).
Qed.

Lemma wf_field_json f : wfField f = true -> JsonWf.wf (field_json f) = true.
Proof.
  unfold wfField. intros H.
  apply andb_prop in H. destruct H as [H Ha].
  apply andb_prop in H. destruct H as [H Hv].
  apply andb_prop in H. destruct H as [Hi Hh].
  unfold field_json.
  destruct (answerConfig f) as [a|]; cbn [app JsonWf.wf map fst forallb];
    rewrite Hi, Hh, (wf_value_json _ Hv);
    try rewrite (wf_answerConfig_json a Ha);
    now destruct (type f).
Qed.

Lemma wf_config_json c : wfConfig c = true -> JsonWf.wf (config_json c) = true.
Proof.
  unfold wfConfig, config_json. cbn [JsonWf.wf]. intros H.
  rewrite forallb_forall in H |- *. intros x Hx.
  apply in_map_iff in Hx. destruct Hx as (f & <- & Hf).
  apply wf_field_json. now apply H.
Qed.

Lemma value_json_inj v v' : value_json v = value_json v' -> v = v'.
Proof. destruct v, v'; simpl; congruence. Qed.

Lemma map_inj {A B} (f : A -> B) :
  (forall x y, f x = f y -> x = y) ->
  forall l l', map f l = map f l' -> l = l'.
Proof.
  intros Hf. induction l as [|x l IH]; intros [|y l']; simpl; try congruence.
  intros [= Hx Hl]. f_equal; [now apply Hf | now apply IH].
Qed.

Lemma answerConfig_json_inj a a' :
  answerConfig_json a = answerConfig_json a' -> a = a'.
Proof.
  destruct a as [k m o], a' as [k' m' o']. unfold answerConfig_json. simpl.
  intros [= Hk Hm Ho].
  apply value_json_inj in Hk. apply (map_inj _ value_json_inj) in Ho.
  subst. f_equal. destruct m, m'; try reflexivity; discriminate.
Qed.

Lemma field_json_inj f f' : field_json f = field_json f' -> f = f'.
Proof.
  destruct f as [i h t v a], f' as [i' h' t' v' a']. unfold field_json. simpl.
  intros [= Hi Hh Ht Hv Ha].
  apply value_json_inj in Hv. subst. f_equal.
  - destruct t, t'; try reflexivity; discriminate.
  - destruct a as [a|], a' as [a'|]; try discriminate; [|reflexivity].
    f_equal. apply answerConfig_json_inj. congruence.
Qed.

Lemma config_json_inj c c' : config_json c = config_json c' -> c = c'.
Proof.
  unfold config_json. intros [= H]. exact (map_inj _ field_json_inj _ _ H).
Qed.

(** * The claims *)

(** ** The tabular parser *)

(** C10. Every cell of every row that [parseCSV] returns is trimmed: it is
    a fixed point of [trim], and neither its first nor its last code unit
    is white space.  The statement is over all texts, so it covers cells
    that were written between double quotes. *)
Theorem C10_cells_trimmed (text : jsstring) (r : list jsstring) (c : jsstring) :
  In r (Csv.parseCSV text) -> In c r ->
  trim c = c
  /\ (forall u t, c = u :: t -> isWhiteSpace u = false)
  /\ (forall t u, c = t ++ [u] -> isWhiteSpace u = false).
Proof.
  intros Hr Hc.
  pose proof (CsvFacts.parseCSV_cells_trimmed text r Hr) as Hall.
  rewrite Forall_forall in Hall. specialize (Hall c Hc).
  unfold CsvInv.Trimmed in Hall.
  split; [exact Hall|]. split.
  - intros u t ->. pose proof (trim_starts_clean (u :: t)) as H.
    rewrite Hall in H. exact H.
  - intros t u ->. pose proof (trim_ends_clean (t ++ [u])) as H.
    rewrite Hall, rev_app_distr in H. exact H.
Qed.

(** A quoted cell with spaces inside the quotes comes out without them. *)
Lemma C10_cells_trimmed_witness :
  Csv.parseCSV (quoteCell (str " a ")) = [[str "a"]]
  /\ trim (str "a") = str "a".
Proof.
  split; [reflexivity|].
  apply (C10_cells_trimmed (quoteCell (str " a ")) [str "a"] (str "a")).
  - vm_compute. left. reflexivity.
  - simpl. left. reflexivity.
Defined.

(** C9. [parseCSV] is a total function (a structural recursion over the
    text, so it returns on every input), and: no row of its result is
    empty or made only of cells that are empty after trimming; the empty
    text gives the empty grid; a last row without a line terminator is
    captured exactly as it is with one. *)
Theorem C9_no_blank_rows_and_last_row :
  (forall text r, In r (Csv.parseCSV text) ->
     r <> [] /\ exists c, In c r /\ trim c <> [])
  /\ Csv.parseCSV [] = []
  /\ (forall text, Csv.parseCSV (text ++ [LF]) = Csv.parseCSV text)
  /\ Csv.parseCSV (str "a,b" ++ [LF] ++ str "c,d")
     = [[str "a"; str "b"]; [str "c"; str "d"]].
Proof.
  split; [|split; [reflexivity | split; [|reflexivity]]].
  - intros text r Hr.
    pose proof (CsvFacts.parseCSV_cells_trimmed text r Hr) as Hall.
    unfold Csv.parseCSV in Hr. destruct (isEmpty text); [destruct Hr|].
    apply filter_In in Hr. destruct Hr as [_ Hk].
    unfold Csv.keepRow in Hk. apply andb_prop in Hk. destruct Hk as [Hlen Hex].
    split.
    + intros ->. discriminate Hlen.
    + apply existsb_exists in Hex. destruct Hex as (c & Hc & Hne).
      exists c. split; [exact Hc|].
      rewrite Forall_forall in Hall. rewrite (Hall c Hc).
      intros ->. discriminate Hne.
  - intros text. unfold Csv.parseCSV.
    destruct text as [|c t]; [reflexivity|].
    change (isEmpty ((c :: t) ++ [LF])) with false. cbn [isEmpty].
    destruct (CsvFacts.run_snoc_LF (c :: t) Csv.start) as [E|E]; rewrite E.
    + reflexivity.
    + apply CsvFacts.flush_step_LF.
Qed.

Lemma C9_no_blank_rows_and_last_row_witness :
  [str "c"; str "d"] <> [] /\ exists c, In c [str "c"; str "d"] /\ trim c <> [].
Proof.
  apply (proj1 C9_no_blank_rows_and_last_row (str "a,b" ++ [LF] ++ str "c,d")).
  vm_compute. right. left. reflexivity.
Defined.

(** C4, as stated, fails: the parser trims every cell, so a string that
    ends with a newline (here [a], a comma, a double quote and a line
    feed) does not come back. *)
Lemma C4_roundtrip_counterexample :
  Csv.parseCSV (quoteCell (str "a," ++ [DQUOTE; LF]))
  <> [[str "a," ++ [DQUOTE; LF]]].
Proof. vm_compute. discriminate. Qed.

(** C4, amended. Parsing the quoted form of any string [s] gives back
    [trim s] as the single cell of the single row, and no row at all when
    [trim s] is empty. *)
Theorem C4_roundtrip_up_to_trim (s : jsstring) :
  Csv.parseCSV (quoteCell s) = if isEmpty (trim s) then [] else [[trim s]].
Proof. apply CsvFacts.parseCSV_quoteCell. Qed.

(** ** The row evaluator *)

Lemma toUpperCase_basic_on_basic : upper_on_basic toUpperCase_basic.
Proof. intros s _. reflexivity. Qed.

Lemma toUpperCase_basic_no_small : upper_no_fullwidth_small toUpperCase_basic.
Proof.
  intros s c H. unfold toUpperCase_basic in H. apply in_map_iff in H.
  destruct H as (x & <- & _). unfold upperUnit.
  destruct (Z.leb_spec 97 x), (Z.leb_spec x 122), (Z.leb_spec 0xFF41 x),
    (Z.leb_spec x 0xFF5A); simpl; zcases.
Qed.

Lemma replaceFullWidth_spec (s : jsstring) :
  (forall c, In c s -> (0xFF41 <=? c) && (c <=? 0xFF5A) = false) ->
  replaceFullWidth s
  = map (fun c => if Spec.isFullWidthLetter c || Spec.isFullWidthDigit c
                  then c - 0xFEE0 else c) s.
Proof.
  intros H. unfold replaceFullWidth. apply map_ext_in. intros c Hc.
  unfold inFullWidthClass, Spec.isFullWidthLetter, Spec.isFullWidthDigit.
  rewrite (H c Hc), orb_false_r. reflexivity.
Qed.

(** C5. For every raw key the normalized key of line 56 is the
    upper-cased key with every full-width Latin letter and every
    full-width digit moved down by 0xFEE0 and every other unit unchanged;
    the full-width capital A (U+FF21) gives A, the full-width digit three
    (U+FF13) gives 3, and a small a gives A. *)
Theorem C5_key_normalization (toUpperCase : jsstring -> jsstring) :
  upper_on_basic toUpperCase ->
  upper_no_fullwidth_small toUpperCase ->
  (forall rawKey,
      normalizeKey toUpperCase rawKey = Spec.normalize toUpperCase rawKey)
  /\ normalizeKey toUpperCase [0xFF21] = str "A"
  /\ normalizeKey toUpperCase [0xFF13] = str "3"
  /\ normalizeKey toUpperCase (str "a") = str "A".
Proof.
  intros Hb Hn. unfold normalizeKey. repeat split.
  - intros rawKey. unfold Spec.normalize. apply replaceFullWidth_spec.
    intros c. apply Hn.
  - now rewrite Hb.
  - now rewrite Hb.
  - now rewrite Hb.
Qed.

Lemma C5_key_normalization_witness :
  normalizeKey toUpperCase_basic [0xFF41; 0xFF13; 98; 0x4E2D]
  = Spec.normalize toUpperCase_basic [0xFF41; 0xFF13; 98; 0x4E2D].
Proof.
  apply (proj1 (C5_key_normalization toUpperCase_basic
                  toUpperCase_basic_on_basic toUpperCase_basic_no_small)).
Defined.

(** C6. On the row Q1, opt A, opt B, opt C, opt D, B with the key in
    column 5 and the options in columns 1 to 4, the resolver returns
    opt B in content mode and B in key mode; a one-unit key A..Z decodes
    to its alphabet index and a one-unit key 1..9 to its digit value
    minus one. *)
Theorem C6_smart_answer_decoding
    (toUpperCase : jsstring -> jsstring) (StringToNumber : jsstring -> option Z) :
  upper_on_basic toUpperCase ->
  processSmartAnswer toUpperCase StringToNumber quizRow (Some (quizAnswer Content))
  = str "opt B"
  /\ processSmartAnswer toUpperCase StringToNumber quizRow (Some (quizAnswer Key))
     = str "B"
  /\ (forall c, 65 <= c <= 90 -> targetIdxOf [c] = c - 65)
  /\ (forall c, 49 <= c <= 57 -> targetIdxOf [c] = c - 48 - 1).
Proof.
  intros Hb. repeat split.
  - unfold processSmartAnswer, normalizeKey. simpl.
    change (trim (str "B")) with (str "B"). rewrite Hb by reflexivity.
    reflexivity.
  - unfold processSmartAnswer, normalizeKey. simpl.
    change (trim (str "B")) with (str "B"). rewrite Hb by reflexivity.
    reflexivity.
  - intros c Hc. unfold targetIdxOf. zcases.
  - intros c Hc. unfold targetIdxOf. zcases.
Qed.

Lemma C6_smart_answer_decoding_witness :
  processSmartAnswer toUpperCase_basic StringToNumber_digits quizRow
    (Some (quizAnswer Content)) = str "opt B".
Proof.
  apply (proj1 (C6_smart_answer_decoding toUpperCase_basic StringToNumber_digits
                  toUpperCase_basic_on_basic)).
Defined.

(** C1, as stated, fails: with the key B and the second option slot set
    to column 9 of a six-cell row, the key decodes to position 1, the
    slot is set and names no cell of the row, and the resolver returns
    the empty string, not the raw key B. *)
Lemma C1_stray_slot_counterexample :
  trim (orEmpty (element quizRow (Number StringToNumber_digits (sourceKeyIdx strayAnswer))))
  = str "B"
  /\ targetIdxOf (normalizeKey toUpperCase_basic (str "B")) = 1
  /\ nth_error (optionIndices strayAnswer) 1 = Some (VNum 9)
  /\ isEmptyString (VNum 9) = false
  /\ element quizRow (Number StringToNumber_digits (VNum 9)) = None
  /\ processSmartAnswer toUpperCase_basic StringToNumber_digits quizRow
       (Some strayAnswer) = []
  /\ processSmartAnswer toUpperCase_basic StringToNumber_digits quizRow
       (Some strayAnswer) <> str "B".
Proof. repeat split; try reflexivity. vm_compute. discriminate. Qed.

(** C1, amended. In content mode with the key column set: when the key
    decodes to a position inside [optionIndices] whose slot is set, the
    result is the cell the slot names, and the empty string when the slot
    names no cell of the row; the result is the raw trimmed key when the
    key does not decode, when the position is outside [optionIndices],
    and when the slot is unset. *)
Theorem C1_content_mode_results
    (toUpperCase : jsstring -> jsstring) (StringToNumber : jsstring -> option Z)
    (row : list jsstring) (config : AnswerConfig) :
  outputMode config = Content ->
  isEmptyString (sourceKeyIdx config) = false ->
  let rawKey :=
    trim (orEmpty (element row (Number StringToNumber (sourceKeyIdx config)))) in
  let pos := targetIdxOf (normalizeKey toUpperCase rawKey) in
  let answer := processSmartAnswer toUpperCase StringToNumber row (Some config) in
  (forall colIdx,
      0 <= pos ->
      nth_error (optionIndices config) (Z.to_nat pos) = Some colIdx ->
      isEmptyString colIdx = false ->
      (forall i cell, Number StringToNumber colIdx = Some i -> 0 <= i ->
                      nth_error row (Z.to_nat i) = Some cell -> answer = cell)
      /\ (element row (Number StringToNumber colIdx) = None -> answer = []))
  /\ (pos = -1 -> answer = rawKey)
  /\ (Z.of_nat (List.length (optionIndices config)) <= pos -> answer = rawKey)
  /\ (0 <= pos ->
      nth_error (optionIndices config) (Z.to_nat pos) = Some (VStr []) ->
      answer = rawKey).
Proof.
  intros Hmode Hkey rawKey pos answer.
  assert (Hans : answer =
    if (0 <=? pos) && (pos <? Z.of_nat (List.length (optionIndices config)))
    then match nth_error (optionIndices config) (Z.to_nat pos) with
         | Some colIdx =>
             if negb (isEmptyString colIdx)
             then orEmpty (element row (Number StringToNumber colIdx))
             else rawKey
         | None => rawKey
         end
    else rawKey).
  { unfold answer, processSmartAnswer. rewrite Hkey, Hmode. reflexivity. }
  split; [|split; [|split]].
  - intros colIdx Hpos Hslot Hset.
    assert (Hlt : pos < Z.of_nat (List.length (optionIndices config))).
    { assert (Hs : nth_error (optionIndices config) (Z.to_nat pos) <> None)
        by congruence.
      apply nth_error_Some in Hs. lia. }
    assert (Hin : (0 <=? pos)
                  && (pos <? Z.of_nat (List.length (optionIndices config)))
                  = true) by zcases.
    rewrite Hin, Hslot, Hset in Hans. simpl in Hans. split.
    + intros i cell Hi Hi0 Hcell. rewrite Hans, Hi. unfold element.
      replace (0 <=? i) with true by (symmetry; zcases).
      now rewrite Hcell.
    + intros Hnone. now rewrite Hans, Hnone.
  - intros Hpos. rewrite Hans, Hpos. reflexivity.
  - intros Hout. rewrite Hans.
    replace (pos <? Z.of_nat (List.length (optionIndices config))) with false
      by (symmetry; zcases).
    now rewrite andb_false_r.
  - intros Hpos Hslot. rewrite Hans, Hslot. simpl.
    now destruct (_ && _).
Qed.

Lemma C1_content_mode_results_witness :
  processSmartAnswer toUpperCase_basic StringToNumber_digits quizRow
    (Some strayAnswer) = [].
Proof.
  refine (proj2 (proj1 (C1_content_mode_results toUpperCase_basic
                          StringToNumber_digits quizRow strayAnswer
                          eq_refl eq_refl)
                   (VNum 9) _ eq_refl eq_refl) eq_refl).
  vm_compute. discriminate.
Defined.

(** C2 fails on the code: a column field whose source column is unset
    (the empty string) reads column 0, because [Number] of the empty
    string is 0, where the resolver next to it tests for the empty string
    first and returns the empty string.  The rest of the claim holds: on a
    valid index the field reads that cell, and on an index that names no
    cell it gives the empty string. *)
Theorem C2_unset_column_reads_first_cell
    (toUpperCase : jsstring -> jsstring) (StringToNumber : jsstring -> option Z)
    (file_name : jsstring) (first : jsstring) (rest : list jsstring)
    (field : ExportField) :
  empty_string_is_zero StringToNumber ->
  type field = csv_column ->
  sourceValue field = VStr [] ->
  fieldValue toUpperCase StringToNumber file_name (first :: rest) field = first
  /\ processSmartAnswer toUpperCase StringToNumber (first :: rest)
       (Some (mkAnswerConfig (VStr []) Key [])) = []
  /\ (forall row f i cell,
        type f = csv_column -> Number StringToNumber (sourceValue f) = Some i ->
        0 <= i -> nth_error row (Z.to_nat i) = Some cell ->
        fieldValue toUpperCase StringToNumber file_name row f = cell)
  /\ (forall row f,
        type f = csv_column ->
        element row (Number StringToNumber (sourceValue f)) = None ->
        fieldValue toUpperCase StringToNumber file_name row f = []).
Proof.
  intros H0 Ht Hv. split; [|split; [reflexivity | split]].
  - unfold fieldValue. rewrite Ht, Hv. simpl. now rewrite H0.
  - intros row f i cell Hf Hi Hi0 Hcell. unfold fieldValue.
    rewrite Hf, Hi. unfold element.
    replace (0 <=? i) with true by (symmetry; zcases). now rewrite Hcell.
  - intros row f Hf Hnone. unfold fieldValue. now rewrite Hf, Hnone.
Qed.

Lemma C2_unset_column_reads_first_cell_witness :
  fieldValue toUpperCase_basic StringToNumber_digits (str "quiz.csv")
    quizRow unsetColumn = str "Q1".
Proof.
  apply (proj1 (C2_unset_column_reads_first_cell toUpperCase_basic
                  StringToNumber_digits (str "quiz.csv") (str "Q1")
                  (tl quizRow) unsetColumn eq_refl eq_refl eq_refl)).
Defined.

(** ** The emitter *)

Lemma fold_left_push {A B} (f : A -> B) (l : list A) (init : list B) :
  fold_left (fun acc x => acc ++ [f x]) l init = init ++ map f l.
Proof.
  revert init. induction l as [|x l IH]; intros init; simpl.
  - now rewrite app_nil_r.
  - rewrite IH, <- app_assoc. reflexivity.
Qed.

(** C7. For every configuration, grid and file name, the text
    [generateCSV] returns is the header names joined by commas, unquoted,
    followed by one line per row of the grid after row 0, each made of the
    evaluator's results wrapped in double quotes with the inner double
    quotes doubled and joined by commas, the lines being joined by line
    feeds; the two-column example of the specification gives the header
    line h1,h2 and the data line of the two quoted cells. *)
Theorem C7_emitted_document
    (toUpperCase : jsstring -> jsstring) (StringToNumber : jsstring -> option Z) :
  (forall config grid file_name,
      generateCSV toUpperCase StringToNumber config grid file_name
      = Spec.emit
          (fun row => map (fieldValue toUpperCase StringToNumber file_name row) config)
          (map headerName config) grid)
  /\ (forall file_name,
        generateCSV toUpperCase StringToNumber twoColumns twoColumnGrid file_name
        = str "h1,h2" ++ [LF]
          ++ [DQUOTE] ++ str "a,b" ++ [DQUOTE] ++ [COMMA]
          ++ [DQUOTE] ++ str "c" ++ [DQUOTE; DQUOTE] ++ str "d" ++ [DQUOTE]).
Proof.
  split.
  - intros config grid file_name. unfold generateCSV, Spec.emit.
    rewrite (fold_left_push
               (fun row => join [COMMA]
                             (outputRow toUpperCase StringToNumber config file_name row))).
    simpl app. f_equal. f_equal. apply map_ext. intros row.
    unfold outputRow. now rewrite map_map.
  - intros file_name. reflexivity.
Qed.

(** ** The configuration codec *)

(** C3, as stated, fails: the text 42 is well-formed JSON but the
    document of no configuration, and importing it raises nothing and
    replaces the configuration that was held. *)
Lemma C3_valid_json_counterexample :
  (forall c, Json.parse (str "42") <> Some (config_json c))
  /\ importConfig (Some (str "42")) (config_json twoColumns)
     = (Json.JNum 42, None).
Proof.
  split; [|reflexivity].
  intros c H. vm_compute in H. discriminate.
Qed.

(** C3, amended. Importing a text that is not well-formed JSON shows the
    alert and keeps the configuration held before unchanged; a text that
    is well-formed JSON is not checked any further: the value it denotes
    becomes the configuration and no alert is shown. *)
Theorem C3_import_outcomes (text : jsstring) (exportConfig : Json.json) :
  (~ Json.wellFormed text ->
     importConfig (Some text) exportConfig
     = (exportConfig, Some invalidConfigMessage))
  /\ (Json.wellFormed text ->
        exists imported,
          Json.parse text = Some imported
          /\ importConfig (Some text) exportConfig = (imported, None)).
Proof.
  unfold importConfig. split.
  - intros Hbad. destruct (Json.parse text) as [v|] eqn:E; [|reflexivity].
    exfalso. apply Hbad. exact (JsonFuel.parse_sound text v E).
  - intros Hok. destruct (JsonFuel.parse_complete text Hok) as (v & E).
    exists v. now rewrite E.
Qed.

Lemma C3_import_outcomes_witness :
  importConfig (Some (str "[1,]")) (config_json twoColumns)
  = (config_json twoColumns, Some invalidConfigMessage).
Proof.
  apply (proj1 (C3_import_outcomes (str "[1,]") (config_json twoColumns))).
  intros H. apply JsonFuel.parse_complete in H. destruct H as (v & H).
  vm_compute in H. discriminate.
Defined.

(** C8. For every well-formed configuration, built from any of the four
    kinds of field, with or without unset option slots: importing the
    text that the export writes gives the configuration back, the same
    fields in the same order with the same attributes, and shows no
    alert. *)
Theorem C8_codec_roundtrip (c : list ExportField) (held : Json.json) :
  wfConfig c = true ->
  importConfig (Some (exportCurrentConfig (config_json c))) held
  = (config_json c, None)
  /\ (forall c', config_json c' = config_json c -> c' = c).
Proof.
  intros Hwf. split.
  - unfold importConfig, exportCurrentConfig.
    now rewrite (parse_stringify _ (wf_config_json c Hwf)).
  - intros c'. apply config_json_inj.
Qed.

Lemma C8_codec_roundtrip_witness :
  importConfig (Some (exportCurrentConfig (config_json allKinds))) Json.JNull
  = (config_json allKinds, None).
Proof.
  apply (proj1 (C8_codec_roundtrip allKinds Json.JNull eq_refl)).
Defined.

(** * Further properties *)

(** ** Reordering by drag *)

Module EditorFacts.
Import Editor.

Lemma nth_error_split_at {A} (l : list A) d x :
  nth_error l d = Some x -> l = firstn d l ++ x :: skipn (S d) l.
Proof.
  revert d. induction l as [|y l IH]; intros [|d] H; simpl in *;
    try discriminate.
  - now injection H as ->.
  - f_equal. now apply IH.
Qed.

Lemma spliceInsert_Delete_same {A} (l : list A) d x :
  nth_error l d = Some x -> spliceInsert d x (spliceDelete1 d l) = l.
Proof.
  revert d. induction l as [|y l IH]; intros [|d] H; simpl in H;
    try discriminate.
  - now injection H as ->.
  - change (spliceInsert (S d) x (spliceDelete1 (S d) (y :: l)))
      with (y :: spliceInsert d x (spliceDelete1 d l)).
    f_equal. now apply IH.
Qed.

Lemma spliceDelete_Insert_same {A} (m : list A) i x :
  (i <= List.length m)%nat -> spliceDelete1 i (spliceInsert i x m) = m.
Proof.
  revert i. induction m as [|y m IH]; intros [|i] Hi; simpl in Hi;
    try lia; try reflexivity.
  change (spliceDelete1 (S i) (spliceInsert (S i) x (y :: m)))
    with (y :: spliceDelete1 i (spliceInsert i x m)).
  f_equal. apply IH. lia.
Qed.

Lemma spliceInsert_nth {A} (m : list A) i x :
  (i <= List.length m)%nat -> nth_error (spliceInsert i x m) i = Some x.
Proof.
  revert i. induction m as [|y m IH]; intros [|i] Hi; simpl in Hi;
    try lia; try reflexivity.
  change (nth_error (spliceInsert (S i) x (y :: m)) (S i))
    with (nth_error (spliceInsert i x m) i).
  apply IH. lia.
Qed.

Lemma spliceInsert_perm {A} (m : list A) i x :
  Permutation (spliceInsert i x m) (x :: m).
Proof.
  unfold spliceInsert. rewrite <- (firstn_skipn i m) at 3.
  symmetry. apply Permutation_middle.
Qed.

Lemma spliceDelete1_perm {A} (l : list A) d x :
  nth_error l d = Some x -> Permutation (x :: spliceDelete1 d l) l.
Proof.
  intros H. unfold spliceDelete1.
  rewrite (nth_error_split_at l d x H) at 3.
  apply Permutation_middle.
Qed.

Lemma spliceDelete1_length {A} (l : list A) d :
  (d < List.length l)%nat ->
  S (List.length (spliceDelete1 d l)) = List.length l.
Proof.
  intros H. unfold spliceDelete1.
  rewrite length_app, length_firstn, length_skipn. lia.
Qed.

Lemma onDragEnter_result c dragged index item :
  nth_error c dragged = Some item -> dragged <> index ->
  onDragEnter index (mkDrag c (Some dragged))
  = Some (mkDrag (spliceInsert index item (spliceDelete1 dragged c)) (Some index)).
Proof.
  intros H Hne. unfold onDragEnter. simpl.
  destruct (Nat.eqb_spec dragged index); [contradiction|]. now rewrite H.
Qed.

End EditorFacts.

(** X1. Dragging the field at position [dragged] over another position
    of the list gives a list with the same fields, each as often as
    before, and of the same length. *)
Theorem onDragEnter_permutation
    (c : list ExportField) (dragged index : nat) (item : ExportField) :
  nth_error c dragged = Some item -> dragged <> index ->
  exists c',
    Editor.onDragEnter index (Editor.mkDrag c (Some dragged))
    = Some (Editor.mkDrag c' (Some index))
    /\ Permutation c' c
    /\ List.length c' = List.length c.
Proof.
  intros H Hne.
  exists (Editor.spliceInsert index item (Editor.spliceDelete1 dragged c)).
  split; [apply EditorFacts.onDragEnter_result; assumption|].
  assert (Hp : Permutation
                 (Editor.spliceInsert index item (Editor.spliceDelete1 dragged c)) c).
  { etransitivity; [apply EditorFacts.spliceInsert_perm|].
    now apply EditorFacts.spliceDelete1_perm. }
  split; [exact Hp | now apply Permutation_length].
Qed.

Lemma onDragEnter_permutation_witness :
  exists c',
    Editor.onDragEnter 0 (Editor.mkDrag allKinds (Some 2%nat))
    = Some (Editor.mkDrag c' (Some 0%nat))
    /\ Permutation c' allKinds
    /\ List.length c' = List.length allKinds.
Proof.
  destruct (nth_error allKinds 2) as [item|] eqn:E; [|discriminate E].
  apply (onDragEnter_permutation allKinds 2 0 item E). discriminate.
Defined.

(** X2. After the drag the dragged field sits at the position it was
    dragged over, and the other fields keep their order: taking the
    moved field out of the new list and out of the old one leaves the
    same list. *)
Theorem onDragEnter_places_item
    (c : list ExportField) (dragged index : nat) (item : ExportField) :
  nth_error c dragged = Some item -> dragged <> index ->
  (index < List.length c)%nat ->
  exists c',
    Editor.onDragEnter index (Editor.mkDrag c (Some dragged))
    = Some (Editor.mkDrag c' (Some index))
    /\ nth_error c' index = Some item
    /\ Editor.spliceDelete1 index c' = Editor.spliceDelete1 dragged c.
Proof.
  intros H Hne Hi.
  exists (Editor.spliceInsert index item (Editor.spliceDelete1 dragged c)).
  split; [apply EditorFacts.onDragEnter_result; assumption|].
  assert (Hd : (dragged < List.length c)%nat)
    by (apply nth_error_Some; congruence).
  pose proof (EditorFacts.spliceDelete1_length c dragged Hd) as Hl.
  split.
  - apply EditorFacts.spliceInsert_nth. lia.
  - apply EditorFacts.spliceDelete_Insert_same. lia.
Qed.

Lemma onDragEnter_places_item_witness :
  exists c',
    Editor.onDragEnter 0 (Editor.mkDrag allKinds (Some 2%nat))
    = Some (Editor.mkDrag c' (Some 0%nat))
    /\ nth_error c' 0 = nth_error allKinds 2
    /\ Editor.spliceDelete1 0 c' = Editor.spliceDelete1 2 allKinds.
Proof.
  destruct (nth_error allKinds 2) as [item|] eqn:E; [|discriminate E].
  apply (onDragEnter_places_item allKinds 2 0 item E); [discriminate|].
  vm_compute. lia.
Defined.

(** X3. Dragging a field over another position and then back over the
    position it came from restores the configuration. *)
Theorem onDragEnter_there_and_back
    (c : list ExportField) (dragged index : nat) (item : ExportField) :
  nth_error c dragged = Some item -> dragged <> index ->
  (index < List.length c)%nat ->
  exists st,
    Editor.onDragEnter index (Editor.mkDrag c (Some dragged)) = Some st
    /\ Editor.onDragEnter dragged st = Some (Editor.mkDrag c (Some dragged)).
Proof.
  intros H Hne Hi.
  exists (Editor.mkDrag (Editor.spliceInsert index item (Editor.spliceDelete1 dragged c))
            (Some index)).
  split; [apply EditorFacts.onDragEnter_result; assumption|].
  assert (Hd : (dragged < List.length c)%nat)
    by (apply nth_error_Some; congruence).
  pose proof (EditorFacts.spliceDelete1_length c dragged Hd) as Hl.
  rewrite (EditorFacts.onDragEnter_result _ index dragged item).
  - rewrite EditorFacts.spliceDelete_Insert_same by lia.
    now rewrite EditorFacts.spliceInsert_Delete_same.
  - apply EditorFacts.spliceInsert_nth. lia.
  - congruence.
Qed.

Lemma onDragEnter_there_and_back_witness :
  exists st,
    Editor.onDragEnter 0 (Editor.mkDrag allKinds (Some 2%nat)) = Some st
    /\ Editor.onDragEnter 2 st = Some (Editor.mkDrag allKinds (Some 2%nat)).
Proof.
  destruct (nth_error allKinds 2) as [item|] eqn:E; [|discriminate E].
  apply (onDragEnter_there_and_back allKinds 2 0 item E); [discriminate|].
  vm_compute. lia.
Defined.

(** ** Adding, removing and updating fields *)

Module ConfigFacts.
Import Editor.

Lemma jsstring_eqb_refl a : jsstring_eqb a a = true.
Proof. now apply JsonFacts.jsstring_eqb_eq. Qed.

Lemma jsstring_eqb_neq a b : a <> b -> jsstring_eqb a b = false.
Proof.
  intros H. destruct (jsstring_eqb a b) eqn:E; [|reflexivity].
  apply JsonFacts.jsstring_eqb_eq in E. contradiction.
Qed.

Lemma removeField_absent c target :
  ~ In target (map id c) -> removeField c target = c.
Proof.
  induction c as [|g c IH]; simpl; intros H; [reflexivity|].
  rewrite jsstring_eqb_neq by (intros E; apply H; now left).
  simpl. f_equal. apply IH. intros Hin. apply H. now right.
Qed.

Lemma removeField_at c p f :
  NoDup (map id c) -> nth_error c p = Some f ->
  removeField c (id f) = spliceDelete1 p c.
Proof.
  revert p. induction c as [|g c IH]; intros [|p] Hnd H; simpl in H;
    try discriminate; simpl in Hnd; inversion Hnd as [|? ? Hg Hc]; subst.
  - injection H as ->. simpl. rewrite jsstring_eqb_refl. simpl.
    now apply removeField_absent.
  - assert (Hne : id g <> id f).
    { intros E. apply Hg. rewrite E. apply in_map. eapply nth_error_In. exact H. }
    simpl. rewrite jsstring_eqb_neq by exact Hne. simpl.
    change (spliceDelete1 (S p) (g :: c)) with (g :: spliceDelete1 p c).
    f_equal. now apply IH.
Qed.

Lemma spliceDelete1_map {A B} (h : A -> B) p (l : list A) :
  map h (spliceDelete1 p l) = spliceDelete1 p (map h l).
Proof.
  unfold spliceDelete1. now rewrite map_app, firstn_map, skipn_map.
Qed.

Lemma updateField_absent c target u :
  ~ In target (map id c) -> updateField c target u = c.
Proof.
  induction c as [|g c IH]; simpl; intros H; [reflexivity|].
  rewrite jsstring_eqb_neq by (intros E; apply H; now left).
  f_equal. apply IH. intros Hin. apply H. now right.
Qed.

Lemma updateField_at c p f u :
  NoDup (map id c) -> nth_error c p = Some f ->
  updateField c (id f) u = firstn p c ++ merge f u :: skipn (S p) c.
Proof.
  revert p. induction c as [|g c IH]; intros [|p] Hnd H; simpl in H;
    try discriminate; simpl in Hnd; inversion Hnd as [|? ? Hg Hc]; subst.
  - injection H as ->. simpl. rewrite jsstring_eqb_refl.
    f_equal. now apply updateField_absent.
  - assert (Hne : id g <> id f).
    { intros E. apply Hg. rewrite E. apply in_map. eapply nth_error_In. exact H. }
    simpl. rewrite jsstring_eqb_neq by exact Hne.
    f_equal. now apply IH.
Qed.

Lemma updateField_ids c target u :
  u_id u = None -> map id (updateField c target u) = map id c.
Proof.
  intros Hu. unfold updateField. rewrite map_map. apply map_ext.
  intros f. destruct (jsstring_eqb (id f) target); [|reflexivity].
  unfold merge. simpl. now rewrite Hu.
Qed.

Lemma NoDup_map_same {A B} (h : A -> B) (l : list A) x y :
  NoDup (map h l) -> In x l -> In y l -> h x = h y -> x = y.
Proof.
  induction l as [|z l IH]; simpl; intros Hnd Hx Hy E; [contradiction|].
  inversion Hnd as [|? ? Hz Hl]; subst.
  destruct Hx as [-> | Hx], Hy as [-> | Hy]; try reflexivity.
  - exfalso. apply Hz. rewrite E. now apply in_map.
  - exfalso. apply Hz. rewrite <- E. now apply in_map.
  - now apply IH.
Qed.

Lemma NoDup_map_filter {A B} (h : A -> B) (keep : A -> bool) (l : list A) :
  NoDup (map h l) -> NoDup (map h (filter keep l)).
Proof.
  induction l as [|z l IH]; simpl; intros Hnd; [constructor|].
  inversion Hnd as [|? ? Hz Hl]; subst.
  destruct (keep z); simpl; [|now apply IH].
  constructor; [|now apply IH].
  intros Hin. apply Hz. apply in_map_iff in Hin.
  destruct Hin as (x & Hx & Hf). apply filter_In in Hf.
  rewrite <- Hx. apply in_map. tauto.
Qed.

Lemma setSlot_length i text l l' :
  setSlot i text l = Some l' -> (i < List.length l)%nat ->
  List.length l' = List.length l.
Proof.
  revert i l'. induction l as [|v l IH]; intros [|i] l' H Hi; simpl in *;
    try lia.
  - now injection H as <-.
  - destruct (setSlot i text l) as [r|] eqn:E; [|discriminate].
    injection H as <-. simpl. f_equal. apply (IH i); [exact E | lia].
Qed.

(** An update of the answer of a drawn smart-answer field keeps the
    fields shapely. *)
Lemma update_answer_shapely c field a' :
  NoDup (map id c) -> Forall shapely c -> In field c ->
  type field = smart_answer ->
  List.length (optionIndices a') = 4%nat ->
  Forall shapely (updateField c (id field) (setAnswerConfig a')).
Proof.
  intros Hnd Hsh Hin Ht Hlen. unfold updateField.
  rewrite Forall_forall in Hsh |- *. intros g Hg.
  apply in_map_iff in Hg. destruct Hg as (f & <- & Hf).
  destruct (jsstring_eqb (id f) (id field)) eqn:E; [|now apply Hsh].
  apply JsonFacts.jsstring_eqb_eq in E.
  assert (f = field) by (eapply NoDup_map_same; eauto). subst f.
  unfold shapely, merge. simpl. now rewrite Ht.
Qed.

Lemma update_plain_shapely c target u :
  u_type u = None -> u_answerConfig u = None ->
  Forall shapely c -> Forall shapely (updateField c target u).
Proof.
  intros H1 H2 Hsh. unfold updateField.
  rewrite Forall_forall in Hsh |- *. intros g Hg.
  apply in_map_iff in Hg. destruct Hg as (f & <- & Hf).
  destruct (jsstring_eqb (id f) target); [|now apply Hsh].
  specialize (Hsh f Hf). unfold shapely, merge in *. simpl.
  now rewrite H1, H2.
Qed.

Lemma shapely_slots c field a :
  Forall shapely c -> In field c -> type field = smart_answer ->
  answerConfig field = Some a -> List.length (optionIndices a) = 4%nat.
Proof.
  intros Hsh Hin Ht Ha. rewrite Forall_forall in Hsh.
  specialize (Hsh field Hin). unfold shapely in Hsh. now rewrite Ht, Ha in Hsh.
Qed.

Lemma suggested_invariant response : editorInvariant (Suggest.autoSuggest response).
Proof.
  destruct response as [m|]; split; simpl.
  - repeat constructor; simpl; intuition discriminate.
  - repeat constructor.
  - repeat constructor. simpl. tauto.
  - repeat constructor.
Qed.

Lemma step_invariant c c' :
  EditorStep c c' -> editorInvariant c -> editorInvariant c'.
Proof.
  intros Hstep [Hnd Hsh].
  destruct Hstep as [newId kind value label Hfresh | target
                    | dragged index st Hdrag | field text Hin | field text Hin
                    | field a text Hin Ht Ha | field a mode Hin Ht Ha
                    | field a i text a' Hin Ht Ha Hi Hslot].
  - unfold addField. split.
    + rewrite map_app. simpl. apply NoDup_app.
      * exact Hnd.
      * repeat constructor. simpl. tauto.
      * intros x Hx [<- | []]. contradiction.
    + apply Forall_app. split; [exact Hsh|]. constructor; [|constructor].
      unfold shapely. simpl. now destruct kind.
  - split.
    + now apply NoDup_map_filter.
    + unfold removeField. rewrite Forall_forall in Hsh |- *.
      intros g Hg. apply filter_In in Hg. apply Hsh. tauto.
  - unfold onDragEnter in Hdrag. simpl in Hdrag.
    destruct (Nat.eqb dragged index).
    { injection Hdrag as <-. now split. }
    destruct (nth_error c dragged) as [item|] eqn:E; [|discriminate].
    injection Hdrag as <-. simpl.
    assert (Hp : Permutation (spliceInsert index item (spliceDelete1 dragged c)) c).
    { etransitivity; [apply EditorFacts.spliceInsert_perm|].
      now apply EditorFacts.spliceDelete1_perm. }
    split.
    + eapply Permutation_NoDup; [|exact Hnd].
      apply Permutation_map. now symmetry.
    + eapply Permutation_Forall; [|exact Hsh]. now symmetry.
  - split; [now rewrite updateField_ids | now apply update_plain_shapely].
  - split; [now rewrite updateField_ids | now apply update_plain_shapely].
  - pose proof (shapely_slots c field a Hsh Hin Ht Ha) as Hlen.
    split; [now rewrite updateField_ids | now apply update_answer_shapely].
  - pose proof (shapely_slots c field a Hsh Hin Ht Ha) as Hlen.
    split; [now rewrite updateField_ids | now apply update_answer_shapely].
  - pose proof (shapely_slots c field a Hsh Hin Ht Ha) as Hlen.
    split; [now rewrite updateField_ids|].
    apply update_answer_shapely; try assumption.
    unfold withOptionSlot in Hslot.
    destruct (setSlot i text (optionIndices a)) as [l'|] eqn:E; [|discriminate].
    injection Hslot as <-. simpl. rewrite <- Hlen.
    apply (setSlot_length i text); [exact E | lia].
Qed.

End ConfigFacts.

(** X4. Every configuration the editor builds, from the empty or from a
    suggested one, by adding fields under fresh identifiers, removing,
    dragging and editing them through the form, has pairwise distinct
    identifiers, and an [answerConfig] exactly on its smart-answer
    fields, each with four option slots. *)
Theorem reachable_invariant (c : list ExportField) :
  Reachable c -> editorInvariant c.
Proof.
  induction 1 as [| response | c c' Hc IH Hstep].
  - split; constructor.
  - apply ConfigFacts.suggested_invariant.
  - exact (ConfigFacts.step_invariant c c' Hstep IH).
Qed.

Lemma reachable_invariant_witness :
  editorInvariant
    (Editor.addField (str "k3x9") (Suggest.autoSuggest None) smart_answer None None).
Proof.
  apply reachable_invariant.
  apply (ReachStep (Suggest.autoSuggest None)); [apply ReachSuggested|].
  apply StepAdd. simpl. intros [H | []]. discriminate H.
Defined.

(** X5. Adding a field leaves the cells of every emitted row as they
    were and puts one cell after them; for a new smart-answer field,
    whose key column is still unset, that cell is the empty string
    between its two quotes. *)
Theorem addField_appends_cell
    (toUpperCase : jsstring -> jsstring) (StringToNumber : jsstring -> option Z)
    (newId : jsstring) (c : list ExportField) (kind : FieldSourceType)
    (value : option jsvalue) (label : option jsstring)
    (file_name : jsstring) (row : list jsstring) :
  firstn (List.length c)
    (outputRow toUpperCase StringToNumber
       (Editor.addField newId c kind value label) file_name row)
  = outputRow toUpperCase StringToNumber c file_name row
  /\ List.length (outputRow toUpperCase StringToNumber
                    (Editor.addField newId c kind value label) file_name row)
     = S (List.length c)
  /\ outputRow toUpperCase StringToNumber
       (Editor.addField newId c smart_answer value label) file_name row
     = outputRow toUpperCase StringToNumber c file_name row ++ [[DQUOTE; DQUOTE]].
Proof.
  unfold Editor.addField, outputRow. rewrite !map_app. split; [|split].
  - rewrite firstn_app, length_map, Nat.sub_diag. simpl.
    rewrite app_nil_r. apply firstn_all2. rewrite length_map. lia.
  - rewrite length_app, length_map. simpl. lia.
  - reflexivity.
Qed.

(** X6. Removing a field leaves no field with its identifier; when the
    identifiers are distinct, it takes out exactly the field at its
    position, and every emitted row loses exactly the cell at that
    position. *)
Theorem removeField_removes_one
    (toUpperCase : jsstring -> jsstring) (StringToNumber : jsstring -> option Z)
    (c : list ExportField) (p : nat) (f : ExportField) :
  NoDup (map id c) -> nth_error c p = Some f ->
  (forall g, In g (Editor.removeField c (id f)) -> id g <> id f)
  /\ Editor.removeField c (id f) = Editor.spliceDelete1 p c
  /\ (forall file_name row,
        outputRow toUpperCase StringToNumber (Editor.removeField c (id f))
          file_name row
        = Editor.spliceDelete1 p
            (outputRow toUpperCase StringToNumber c file_name row)).
Proof.
  intros Hnd Hp. split; [|split].
  - intros g Hg. unfold Editor.removeField in Hg. apply filter_In in Hg.
    destruct Hg as [_ Hg]. apply negb_true_iff in Hg. intros E.
    rewrite E, ConfigFacts.jsstring_eqb_refl in Hg. discriminate.
  - now apply ConfigFacts.removeField_at.
  - intros file_name row. rewrite (ConfigFacts.removeField_at c p f Hnd Hp).
    unfold outputRow. apply ConfigFacts.spliceDelete1_map.
Qed.

Lemma removeField_removes_one_witness :
  Editor.removeField allKinds (str "f_q") = Editor.spliceDelete1 1 allKinds.
Proof.
  refine (proj1 (proj2 (removeField_removes_one toUpperCase_basic
            StringToNumber_digits allKinds 1
            (mkExportField (str "f_q") (str "question") csv_column (VNum 0) None)
            _ eq_refl))).
  repeat constructor; simpl; intuition discriminate.
Defined.

(** X7. An update under an identifier no field has changes nothing; when
    the identifiers are distinct, an update under the identifier of the
    field at position [p] replaces that field by the merged one and
    leaves every other field, and the length, as they were. *)
Theorem updateField_touches_one
    (c : list ExportField) (p : nat) (f : ExportField) (updates : Editor.Updates) :
  NoDup (map id c) -> nth_error c p = Some f ->
  Editor.updateField c (id f) updates
  = firstn p c ++ Editor.merge f updates :: skipn (S p) c
  /\ List.length (Editor.updateField c (id f) updates) = List.length c
  /\ (forall target, ~ In target (map id c) ->
        Editor.updateField c target updates = c).
Proof.
  intros Hnd Hp. split; [now apply ConfigFacts.updateField_at|]. split.
  - unfold Editor.updateField. apply length_map.
  - intros target. apply ConfigFacts.updateField_absent.
Qed.

Lemma updateField_touches_one_witness :
  Editor.updateField twoColumns (str "c1") (Editor.setHeaderName (str "second"))
  = [mkExportField (str "c0") (str "h1") csv_column (VNum 0) None;
     mkExportField (str "c1") (str "second") csv_column (VNum 1) None].
Proof.
  refine (proj1 (updateField_touches_one twoColumns 1
            (mkExportField (str "c1") (str "h2") csv_column (VNum 1) None)
            (Editor.setHeaderName (str "second")) _ eq_refl)).
  repeat constructor; simpl; intuition discriminate.
Defined.

(** X8. Renaming the header of a field changes no cell of any emitted
    data row and no identifier, whatever the identifier it is sent
    under. *)
Theorem rename_keeps_cells
    (toUpperCase : jsstring -> jsstring) (StringToNumber : jsstring -> option Z)
    (c : list ExportField) (target text file_name : jsstring)
    (row : list jsstring) :
  outputRow toUpperCase StringToNumber
    (Editor.updateField c target (Editor.setHeaderName text)) file_name row
  = outputRow toUpperCase StringToNumber c file_name row
  /\ map id (Editor.updateField c target (Editor.setHeaderName text)) = map id c.
Proof.
  split; [|now apply ConfigFacts.updateField_ids].
  unfold outputRow, Editor.updateField. rewrite map_map. apply map_ext.
  intros f. now destruct (jsstring_eqb (id f) target).
Qed.

(** ** Column indices as numbers and as texts *)

Module IndexFacts.





Lemma upperUnit_capital c : 65 <= c <= 90 -> upperUnit c = c.
Proof. intros H. unfold upperUnit. zcases. Qed.

Lemma upperUnit_small c : 65 <= c <= 90 -> upperUnit (c + 32) = c.
Proof. intros H. unfold upperUnit. zcases. Qed.

Lemma upperUnit_wide_capital c : 48 <= c <= 90 -> upperUnit (c + 0xFEE0) = c + 0xFEE0.
Proof. intros H. unfold upperUnit. zcases. Qed.

Lemma upperUnit_wide_small c :
  65 <= c <= 90 -> upperUnit (c + 0xFEE0 + 32) = c + 0xFEE0.
Proof. intros H. unfold upperUnit. zcases. Qed.

Lemma replaceFullWidth_plain c : 48 <= c <= 90 -> replaceFullWidth [c] = [c].
Proof. intros H. unfold replaceFullWidth, inFullWidthClass. simpl. zcases. Qed.

Lemma replaceFullWidth_wide c :
  65 <= c <= 90 \/ 48 <= c <= 57 -> replaceFullWidth [c + 0xFEE0] = [c].
Proof.
  intros H. unfold replaceFullWidth, inFullWidthClass. simpl.
  destruct H; zcases; f_equal; lia.
Qed.

Lemma targetIdxOf_letter c : 65 <= c <= 90 -> targetIdxOf [c] = c - 65.
Proof. intros H. unfold targetIdxOf. zcases. Qed.

Lemma targetIdxOf_digit c : 49 <= c <= 57 -> targetIdxOf [c] = c - 49.
Proof. intros H. unfold targetIdxOf. zcases. Qed.

Lemma basic_single c :
  0 <= c < 128 \/ 0xFF01 <= c <= 0xFF5E -> forallb basicUnit [c] = true.
Proof. intros H. unfold basicUnit. simpl. destruct H; zcases. Qed.







End IndexFacts.




(** ** Keys and the suggested configuration *)

(** X10. A key cell holding a capital letter, the same letter small, or
    either of them full-width, decodes to the same option position, the
    alphabet index of the letter; a digit from 1 to 9 and its full-width
    form decode alike to the digit value minus one. *)
Theorem key_spellings_decode_alike (toUpperCase : jsstring -> jsstring) :
  upper_on_basic toUpperCase ->
  (forall c, 65 <= c <= 90 ->
     targetIdxOf (normalizeKey toUpperCase [c]) = c - 65
     /\ targetIdxOf (normalizeKey toUpperCase [c + 32]) = c - 65
     /\ targetIdxOf (normalizeKey toUpperCase [c + 0xFEE0]) = c - 65
     /\ targetIdxOf (normalizeKey toUpperCase [c + 0xFEE0 + 32]) = c - 65)
  /\ (forall c, 49 <= c <= 57 ->
        targetIdxOf (normalizeKey toUpperCase [c]) = c - 49
        /\ targetIdxOf (normalizeKey toUpperCase [c + 0xFEE0]) = c - 49).
Proof.
  intros Hb. unfold normalizeKey. split.
  - intros c Hc. repeat split.
    + rewrite Hb by (apply IndexFacts.basic_single; lia). cbn [map].
      rewrite IndexFacts.upperUnit_capital, IndexFacts.replaceFullWidth_plain by lia.
      now apply IndexFacts.targetIdxOf_letter.
    + rewrite Hb by (apply IndexFacts.basic_single; lia). cbn [map].
      rewrite IndexFacts.upperUnit_small, IndexFacts.replaceFullWidth_plain by lia.
      now apply IndexFacts.targetIdxOf_letter.
    + rewrite Hb by (apply IndexFacts.basic_single; lia). cbn [map].
      rewrite IndexFacts.upperUnit_wide_capital, IndexFacts.replaceFullWidth_wide by lia.
      now apply IndexFacts.targetIdxOf_letter.
    + rewrite Hb by (apply IndexFacts.basic_single; lia). cbn [map].
      rewrite IndexFacts.upperUnit_wide_small, IndexFacts.replaceFullWidth_wide by lia.
      now apply IndexFacts.targetIdxOf_letter.
  - intros c Hc. split.
    + rewrite Hb by (apply IndexFacts.basic_single; lia). cbn [map].
      replace (upperUnit c) with c by (unfold upperUnit; zcases).
      rewrite IndexFacts.replaceFullWidth_plain by lia.
      now apply IndexFacts.targetIdxOf_digit.
    + rewrite Hb by (apply IndexFacts.basic_single; lia). cbn [map].
      rewrite IndexFacts.upperUnit_wide_capital, IndexFacts.replaceFullWidth_wide by lia.
      now apply IndexFacts.targetIdxOf_digit.
Qed.

Lemma key_spellings_decode_alike_witness :
  targetIdxOf (normalizeKey toUpperCase_basic [0xFF42]) = 1.
Proof.
  apply (proj2 (proj2 (proj2
           (proj1 (key_spellings_decode_alike toUpperCase_basic
                     toUpperCase_basic_on_basic) 66 ltac:(lia))))).
Defined.

(** X11. In a suggested configuration whose answer column and chosen
    option are resolved, the answer cell of a row is the cell of the
    option field the key of the row points at: the text of fields 2 to 5
    (the four options) and of field 6 (the answer) agree. *)
Theorem suggested_answer_matches_option
    (toUpperCase : jsstring -> jsstring) (StringToNumber : jsstring -> option Z)
    (mapping : Suggest.Mapping) (file_name : jsstring) (row : list jsstring)
    (a o : Z) (p : nat) :
  Suggest.answer mapping = Some a ->
  nth_error [Suggest.option1 mapping; Suggest.option2 mapping;
             Suggest.option3 mapping; Suggest.option4 mapping] p
  = Some (Some o) ->
  targetIdxOf (normalizeKey toUpperCase (trim (orEmpty (element row (Some a)))))
  = Z.of_nat p ->
  nth 6 (map (fieldValue toUpperCase StringToNumber file_name row)
             (Suggest.suggestedFields mapping)) []
  = nth (2 + p) (map (fieldValue toUpperCase StringToNumber file_name row)
                     (Suggest.suggestedFields mapping)) [].
Proof.
  intros Ha Ho Hp.
  unfold Suggest.suggestedFields. cbn [map nth fieldValue type answerConfig].
  unfold processSmartAnswer.
  cbn [sourceKeyIdx outputMode optionIndices]. rewrite Ha.
  cbn [Suggest.orUnset isEmptyString Number]. rewrite Hp.
  destruct p as [|[|[|[|p]]]]; cbn [nth_error] in Ho;
    try (destruct p; discriminate Ho);
    injection Ho as Ho; rewrite Ho; reflexivity.
Qed.

Lemma suggested_answer_matches_option_witness :
  nth 6 (map (fieldValue toUpperCase_basic StringToNumber_digits (str "quiz.csv")
                quizRow)
             (Suggest.suggestedFields
                (Suggest.mkMapping (Some 0) (Some 1) (Some 2) (Some 3) (Some 4)
                   (Some 5)))) []
  = str "opt B".
Proof.
  apply (suggested_answer_matches_option toUpperCase_basic StringToNumber_digits
           (Suggest.mkMapping (Some 0) (Some 1) (Some 2) (Some 3) (Some 4) (Some 5))
           (str "quiz.csv") quizRow 5 2 1 eq_refl eq_refl eq_refl).
Defined.

Lemma wfValue_orUnset x : Suggest.safeIndex x = true -> wfValue (Suggest.orUnset x) = true.
Proof. destruct x; simpl; auto. Qed.

Lemma wfConfig_autoSuggest response :
  match response with Some m => Suggest.safeMapping m = true | None => True end ->
  wfConfig (Suggest.autoSuggest response) = true.
Proof.
  destruct response as [m|]; [|reflexivity]. unfold Suggest.safeMapping.
  intros H. repeat (apply andb_prop in H; destruct H as [H ?]).
  unfold Suggest.autoSuggest, Suggest.suggestedFields, wfConfig, wfField, wfAnswer.
  cbn [forallb id headerName sourceValue answerConfig sourceKeyIdx optionIndices].
  rewrite !wfValue_orUnset by assumption. reflexivity.
Qed.

(** X12. A suggested configuration (or the fallback one) written to the
    settings file by the export, through [downloadFile], and read back by
    the import gives the same configuration, with no alert; the settings
    file gets no byte-order mark. *)
Theorem suggested_config_survives_export
    (response : option Suggest.Mapping) (held : Json.json) :
  match response with Some m => Suggest.safeMapping m = true | None => True end ->
  importConfig
    (Some (blobText (exportCurrentConfig (config_json (Suggest.autoSuggest response)))
             (str "application/json")))
    held
  = (config_json (Suggest.autoSuggest response), None).
Proof.
  intros Hs. change (blobText ?t (str "application/json")) with t.
  unfold importConfig, exportCurrentConfig.
  now rewrite (parse_stringify _ (wf_config_json _ (wfConfig_autoSuggest _ Hs))).
Qed.

Lemma suggested_config_survives_export_witness :
  importConfig
    (Some (blobText
             (exportCurrentConfig
                (config_json
                   (Suggest.autoSuggest
                      (Some (Suggest.mkMapping (Some 0) None (Some 2) None (Some 4)
                               (Some 5))))))
             (str "application/json")))
    Json.JNull
  = (config_json
       (Suggest.autoSuggest
          (Some (Suggest.mkMapping (Some 0) None (Some 2) None (Some 4) (Some 5)))),
     None).
Proof.
  apply (suggested_config_survives_export
           (Some (Suggest.mkMapping (Some 0) None (Some 2) None (Some 4) (Some 5)))
           Json.JNull eq_refl).
Defined.

(** ** The preview *)

(** X13. The preview shows what the export writes: for a file with a
    non-empty name, the cells of the preview, once quoted, are the cells
    of the first twenty data rows of the emitted document, field by
    field. *)
Theorem preview_shows_emitted_cells
    (toUpperCase : jsstring -> jsstring) (StringToNumber : jsstring -> option Z)
    (c : list ExportField) (originalData : list (list jsstring))
    (name : jsstring) :
  name <> [] ->
  map (map quoteCell)
      (Editor.previewRows toUpperCase StringToNumber c originalData (Some name))
  = firstn 20 (map (outputRow toUpperCase StringToNumber c name) (tl originalData)).
Proof.
  intros Hn. unfold Editor.previewRows.
  replace (skipn 1 originalData) with (tl originalData) by now destruct originalData.
  rewrite firstn_map, map_map. apply map_ext. intros row.
  unfold outputRow. rewrite map_map. apply map_ext. intros f.
  f_equal. unfold Editor.previewValue, fieldValue.
  destruct (type f); try reflexivity. destruct name; [contradiction | reflexivity].
Qed.

Lemma preview_shows_emitted_cells_witness :
  map (map quoteCell)
      (Editor.previewRows toUpperCase_basic StringToNumber_digits twoColumns
         twoColumnGrid (Some (str "quiz.csv")))
  = firstn 20 (map (outputRow toUpperCase_basic StringToNumber_digits twoColumns
                      (str "quiz.csv")) (tl twoColumnGrid)).
Proof.
  apply (preview_shows_emitted_cells toUpperCase_basic StringToNumber_digits
           twoColumns twoColumnGrid (str "quiz.csv")).
  discriminate.
Defined.

(** ** The parser on the documents of this program *)

Module EmitFacts.
Import Csv EmitInv.

Lemma trim_cons_white w s : isWhiteSpace w = true -> trim (w :: s) = trim s.
Proof. intros H. unfold trim. simpl. now rewrite H. Qed.

Lemma white_not_special w :
  isWhiteSpace w = true -> w <> DQUOTE /\ w <> COMMA.
Proof. intros H. split; intros ->; discriminate H. Qed.

(** Induction over the loop for two states scanned side by side. *)
Lemma run_related (R : scan -> scan -> Prop) :
  (forall s1 s2 c n, R s1 s2 ->
     R (fst (step s1 c n)) (fst (step s2 c n))
     /\ snd (step s1 c n) = snd (step s2 c n)) ->
  forall text s1 s2, R s1 s2 -> R (run text s1) (run text s2).
Proof.
  intros Hstep text.
  assert (H : forall n text, (List.length text <= n)%nat ->
                forall s1 s2, R s1 s2 -> R (run text s1) (run text s2)).
  { induction n as [|n IH]; intros [|c rest] Hlen s1 s2 HR;
      try exact HR; simpl in Hlen; try lia.
    destruct rest as [|d rest'].
    - rewrite !CsvFacts.run_single. now apply Hstep.
    - rewrite !CsvFacts.run_cons2.
      destruct (Hstep s1 s2 c (Some d) HR) as [HR' Hskip]. rewrite Hskip.
      destruct (snd (step s2 c (Some d)));
        (apply IH; [simpl in *; lia | exact HR']). }
  intros s1 s2. apply (H (List.length text)). lia.
Qed.

Lemma step_aheadBy w s1 s2 c n :
  isWhiteSpace w = true -> aheadBy w s1 s2 ->
  aheadBy w (fst (step s1 c n)) (fst (step s2 c n))
  /\ snd (step s1 c n) = snd (step s2 c n).
Proof.
  intros Hw (Hres & Hrow & Hq & Hcell).
  destruct s1 as [r1 w1 c1 q1], s2 as [r2 w2 c2 q2]. simpl in *. subst.
  assert (Ht : trim c1 = trim c2).
  { destruct Hcell as [-> | ->]; [reflexivity | now apply trim_cons_white]. }
  unfold step. simpl. rewrite Ht.
  destruct (q2 && (c =? DQUOTE) && nextIs DQUOTE n).
  { simpl. split; [|reflexivity]. unfold aheadBy. simpl.
    repeat split. destruct Hcell as [-> | ->]; [now left | now right]. }
  destruct (c =? DQUOTE).
  { simpl. split; [|reflexivity]. unfold aheadBy. simpl. now repeat split. }
  destruct (negb q2 && (c =? COMMA)).
  { simpl. split; [|reflexivity]. unfold aheadBy. simpl.
    repeat split. now left. }
  destruct (negb q2 && ((c =? LF) || (c =? CR))).
  { simpl. split; [|reflexivity]. unfold aheadBy. simpl.
    replace (0 <? Z.of_nat (List.length (w2 ++ [trim c2]))) with true
      by (symmetry; apply Z.ltb_lt; rewrite length_app; simpl; lia).
    simpl. repeat split. now left. }
  simpl. split; [|reflexivity]. unfold aheadBy. simpl.
  repeat split. destruct Hcell as [-> | ->]; [now left | now right].
Qed.

Lemma flush_aheadBy w s1 s2 :
  isWhiteSpace w = true -> aheadBy w s1 s2 ->
  filter keepRow (flush s1) = filter keepRow (flush s2).
Proof.
  intros Hw (Hres & Hrow & Hq & Hcell).
  destruct s1 as [r1 w1 c1 q1], s2 as [r2 w2 c2 q2]. simpl in *. subst.
  destruct Hcell as [-> | ->]; [reflexivity|].
  unfold flush. cbn [cell row result isEmpty negb orb].
  rewrite (trim_cons_white w c2 Hw).
  destruct c2 as [|c c2']; [|reflexivity].
  destruct w2 as [|x w2']; [|reflexivity].
  cbn [isEmpty negb orb List.length Z.of_nat Z.ltb Z.compare app].
  now rewrite filter_app, CsvFacts.keepRow_blank, app_nil_r.
Qed.

Lemma parseCSV_leading_white w text :
  isWhiteSpace w = true -> w <> LF -> w <> CR ->
  parseCSV (w :: text) = parseCSV text.
Proof.
  intros Hw Hlf Hcr. destruct (white_not_special w Hw) as [Hdq Hcm].
  assert (Hstep : forall n, step start w n = (Scan [] [] [w] false, false)).
  { intros n. unfold step, start. simpl.
    destruct (Z.eqb_spec w DQUOTE); [contradiction|].
    destruct (Z.eqb_spec w COMMA); [contradiction|].
    destruct (Z.eqb_spec w LF); [contradiction|].
    destruct (Z.eqb_spec w CR); [contradiction|]. reflexivity. }
  unfold parseCSV. cbn [isEmpty].
  rewrite CsvFacts.run_cons_noskip by now rewrite Hstep.
  rewrite Hstep. cbn [fst].
  assert (HR : aheadBy w (run text (Scan [] [] [w] false)) (run text start)).
  { apply run_related.
    - intros s1 s2 c n. now apply step_aheadBy.
    - unfold aheadBy, start. simpl. repeat split. now right. }
  rewrite (flush_aheadBy w _ _ Hw HR).
  destruct text as [|c t]; [reflexivity|]. reflexivity.
Qed.

End EmitFacts.

(** X14. A byte-order mark, a space or any other white space that is not
    a line terminator, in front of a text, changes nothing of what
    [parseCSV] returns; so the document that [downloadFile] writes for
    a CSV, which starts with the byte-order mark, parses like the
    document itself. *)
Theorem parseCSV_ignores_leading_mark :
  (forall w text, isWhiteSpace w = true -> w <> LF -> w <> CR ->
                  Csv.parseCSV (w :: text) = Csv.parseCSV text)
  /\ (forall document,
        blobText document (str "text/csv") = BOM :: document
        /\ Csv.parseCSV (blobText document (str "text/csv"))
           = Csv.parseCSV document).
Proof.
  split; [exact EmitFacts.parseCSV_leading_white|].
  intros document. split; [reflexivity|].
  change (blobText document (str "text/csv")) with (BOM :: document).
  apply EmitFacts.parseCSV_leading_white; [reflexivity | discriminate | discriminate].
Qed.

Lemma parseCSV_ignores_leading_mark_witness :
  Csv.parseCSV (32 :: str "a, b") = Csv.parseCSV (str "a, b").
Proof.
  apply (proj1 parseCSV_ignores_leading_mark 32 (str "a, b"));
    [reflexivity | discriminate | discriminate].
Defined.

Module RoundTrip.
Import Csv EmitInv.

(** A header name without quote, comma or line terminator is scanned as
    it is written. *)
Lemma run_plain h : forall res rw cl rest,
  plainText h = true ->
  run (h ++ rest) (Scan res rw cl false) = run rest (Scan res rw (cl ++ h) false).
Proof.
  induction h as [|c h IH]; intros res rw cl rest Hp.
  - now rewrite app_nil_r.
  - unfold plainText in Hp. cbn [forallb] in Hp. apply andb_prop in Hp.
    destruct Hp as [Hc Hh]. unfold plainUnit in Hc.
    apply negb_true_iff in Hc. zhyps.
    assert (Hs : forall n, step (Scan res rw cl false) c n
                           = (Scan res rw (cl ++ [c]) false, false)).
    { intros n. unfold step. simpl.
      destruct (Z.eqb_spec c DQUOTE); [contradiction|].
      destruct (Z.eqb_spec c COMMA); [contradiction|].
      destruct (Z.eqb_spec c LF); [contradiction|].
      destruct (Z.eqb_spec c CR); [contradiction|]. reflexivity. }
    change ((c :: h) ++ rest) with (c :: (h ++ rest)).
    rewrite CsvFacts.run_cons_noskip by now rewrite Hs.
    rewrite Hs. cbn [fst]. rewrite (IH res rw (cl ++ [c]) rest Hh).
    now rewrite <- app_assoc.
Qed.

Lemma scansAs_plain h : plainText h = true -> scansAs (h, h).
Proof. intros Hp res rw rest _. cbn [fst snd]. now rewrite run_plain. Qed.

(** Inside quotes, the escaped text and the closing quote are scanned
    into the cell, whatever follows the closing quote but a quote. *)
Lemma run_quoted_then s : forall res rw cl rest,
  nextIs DQUOTE (hd_error rest) = false ->
  run (doubleQuotes s ++ DQUOTE :: rest) (Scan res rw cl true)
  = run rest (Scan res rw (cl ++ s) false).
Proof.
  induction s as [|c s IH]; intros res rw cl rest Hrest.
  - cbn [doubleQuotes flat_map app].
    assert (Hs : step (Scan res rw cl true) DQUOTE (hd_error rest)
                 = (Scan res rw cl false, false)).
    { unfold step. simpl. now rewrite Hrest. }
    rewrite CsvFacts.run_cons_noskip by now rewrite Hs.
    rewrite Hs. cbn [fst]. now rewrite app_nil_r.
  - cbn [doubleQuotes flat_map]. fold (doubleQuotes s).
    destruct (Z.eqb_spec c DQUOTE) as [->|Hc].
    + change (([DQUOTE; DQUOTE] ++ doubleQuotes s) ++ DQUOTE :: rest)
        with (DQUOTE :: DQUOTE :: (doubleQuotes s ++ DQUOTE :: rest)).
      rewrite CsvFacts.run_cons2. unfold step at 1 2. simpl.
      rewrite IH by exact Hrest. now rewrite <- app_assoc.
    + change (([c] ++ doubleQuotes s) ++ DQUOTE :: rest)
        with (c :: (doubleQuotes s ++ DQUOTE :: rest)).
      assert (Hs : forall n, step (Scan res rw cl true) c n
                             = (Scan res rw (cl ++ [c]) true, false)).
      { intros n. unfold step. simpl.
        destruct (Z.eqb_spec c DQUOTE); [contradiction | reflexivity]. }
      rewrite CsvFacts.run_cons_noskip by now rewrite Hs.
      rewrite Hs. cbn [fst]. rewrite IH by exact Hrest.
      now rewrite <- app_assoc.
Qed.

Lemma scansAs_quoted v : scansAs (quoteCell v, v).
Proof.
  intros res rw rest Hrest. cbn [fst snd]. unfold quoteCell.
  rewrite <- !app_assoc.
  change ([DQUOTE] ++ doubleQuotes v ++ [DQUOTE] ++ rest)
    with (DQUOTE :: (doubleQuotes v ++ DQUOTE :: rest)).
  rewrite CsvFacts.run_cons_noskip by reflexivity.
  change (fst (step (Scan res rw [] false) DQUOTE
                 (hd_error (doubleQuotes v ++ DQUOTE :: rest))))
    with (Scan res rw [] true).
  now rewrite run_quoted_then.
Qed.

Lemma step_LF res rw cl n :
  step (Scan res rw cl false) LF n = (Scan (res ++ [rw ++ [trim cl]]) [] [] false, false).
Proof.
  unfold step. simpl.
  replace (0 <? Z.of_nat (List.length (rw ++ [trim cl]))) with true
    by (symmetry; apply Z.ltb_lt; rewrite length_app; simpl; lia).
  reflexivity.
Qed.

Lemma step_COMMA res rw cl n :
  step (Scan res rw cl false) COMMA n = (Scan res (rw ++ [trim cl]) [] false, false).
Proof. reflexivity. Qed.

(** A line of cells and its line feed are scanned into one more row. *)
Lemma run_line_LF (cs : list (jsstring * jsstring)) :
  Forall scansAs cs ->
  forall res rw rest,
    (cs = [] -> rw = []) ->
    run (join [COMMA] (map fst cs) ++ LF :: rest) (Scan res rw [] false)
    = run rest (Scan (res ++ [rw ++ cellsOrBlank (map snd cs)]) [] [] false).
Proof.
  intros Hall. destruct cs as [|p cs].
  - intros res rw rest Hrw. rewrite (Hrw eq_refl). cbn [map join app cellsOrBlank].
    rewrite CsvFacts.run_cons_noskip by now rewrite step_LF.
    now rewrite step_LF.
  - revert p Hall. induction cs as [|q cs IH]; intros p Hall res rw rest _.
    + inversion Hall as [|? ? Hp _]; subst.
      cbn [map join cellsOrBlank].
      rewrite (Hp res rw (LF :: rest) eq_refl).
      rewrite CsvFacts.run_cons_noskip by now rewrite step_LF.
      now rewrite step_LF.
    + inversion Hall as [|? ? Hp Hrest]; subst.
      cbn [map]. rewrite (JsonFacts.join_cons2 [COMMA]).
      rewrite <- !app_assoc.
      rewrite (Hp res rw ([COMMA] ++ join [COMMA] (fst q :: map fst cs)
                            ++ LF :: rest) eq_refl).
      cbn [app].
      rewrite CsvFacts.run_cons_noskip by now rewrite step_COMMA.
      rewrite step_COMMA. cbn [fst].
      change (join [COMMA] (fst q :: map fst cs))
        with (join [COMMA] (map fst (q :: cs))).
      rewrite (IH q Hrest res (rw ++ [trim (snd p)]) rest) by discriminate.
      cbn [cellsOrBlank map]. now rewrite <- app_assoc.
Qed.

(** The last line, which has no line feed, gives the same row once the
    blank rows are dropped. *)
Lemma flush_last_line (cs : list (jsstring * jsstring)) :
  Forall scansAs cs ->
  forall res,
    filter keepRow (flush (run (join [COMMA] (map fst cs)) (Scan res [] [] false)))
    = filter keepRow (res ++ [cellsOrBlank (map snd cs)]).
Proof.
  intros Hall res. destruct cs as [|p cs].
  - cbn [map join run cellsOrBlank]. unfold flush. simpl.
    now rewrite filter_app, app_nil_r.
  - assert (H : forall cs p rw, Forall scansAs (p :: cs) ->
               filter keepRow
                 (flush (run (join [COMMA] (map fst (p :: cs))) (Scan res rw [] false)))
               = filter keepRow (res ++ [rw ++ map trim (map snd (p :: cs))])).
    { clear. induction cs as [|q cs IH]; intros p rw Hall.
      - inversion Hall as [|? ? Hp _]; subst. cbn [map join].
        pose proof (Hp res rw [] eq_refl) as E. rewrite app_nil_r in E.
        rewrite E. cbn [run]. unfold flush. cbn [cell row result].
        destruct (snd p) as [|c v] eqn:Ev.
        + destruct rw as [|x rw']; [|reflexivity].
          cbn [isEmpty negb orb List.length Z.of_nat Z.ltb Z.compare app].
          now rewrite filter_app, CsvFacts.keepRow_blank, app_nil_r.
        + reflexivity.
      - inversion Hall as [|? ? Hp Hrest]; subst.
        cbn [map]. rewrite (JsonFacts.join_cons2 [COMMA]).
        rewrite (Hp res rw ([COMMA] ++ join [COMMA] (fst q :: map fst cs)) eq_refl).
        cbn [app].
        rewrite CsvFacts.run_cons_noskip by now rewrite step_COMMA.
        rewrite step_COMMA. cbn [fst].
        change (join [COMMA] (fst q :: map fst cs))
          with (join [COMMA] (map fst (q :: cs))).
        rewrite (IH q (rw ++ [trim (snd p)]) Hrest).
        cbn [map]. now rewrite <- app_assoc. }
    exact (H cs p [] Hall).
Qed.

(** A document of lines joined by line feeds. *)
Lemma run_document (l0 : list (jsstring * jsstring)) ls :
  Forall scansAs l0 -> Forall (Forall scansAs) ls ->
  forall res,
    filter keepRow
      (flush (run (join [LF] (map (fun cs => join [COMMA] (map fst cs)) (l0 :: ls)))
                (Scan res [] [] false)))
    = filter keepRow
        (res ++ map (fun cs => cellsOrBlank (map snd cs)) (l0 :: ls)).
Proof.
  revert l0. induction ls as [|l1 ls IH]; intros l0 H0 Hls res.
  - cbn [map join]. now apply flush_last_line.
  - inversion Hls as [|? ? H1 Hls']; subst.
    cbn [map]. rewrite (JsonFacts.join_cons2 [LF]). cbn [app].
    rewrite (run_line_LF l0 H0 res [] _ (fun _ => eq_refl)).
    change (join [COMMA] (map fst l1)
            :: map (fun cs => join [COMMA] (map fst cs)) ls)
      with (map (fun cs => join [COMMA] (map fst cs)) (l1 :: ls)).
    rewrite (IH l1 H1 Hls'). cbn [app map]. now rewrite <- app_assoc.
Qed.

Lemma keepRow_cellsOrBlank vs : keepRow (cellsOrBlank vs) = keepRow (map trim vs).
Proof. now destruct vs. Qed.

Lemma filter_cellsOrBlank vss :
  filter keepRow (map cellsOrBlank vss) = filter keepRow (map (map trim) vss).
Proof.
  induction vss as [|vs vss IH]; [reflexivity|]. cbn [map filter].
  rewrite keepRow_cellsOrBlank, IH. destruct vs; reflexivity.
Qed.

End RoundTrip.

Lemma generateCSV_lines
    (toUpperCase : jsstring -> jsstring) (StringToNumber : jsstring -> option Z)
    (c : list ExportField) (grid : list (list jsstring)) (file_name : jsstring) :
  generateCSV toUpperCase StringToNumber c grid file_name
  = join [LF]
      (map (fun cs => join [COMMA] (map fst cs))
         (map (fun h => (h, h)) (map headerName c)
          :: map (fun row =>
                    map (fun f =>
                           (quoteCell (fieldValue toUpperCase StringToNumber file_name row f),
                            fieldValue toUpperCase StringToNumber file_name row f)) c)
                 (tl grid))).
Proof.
  unfold generateCSV.
  rewrite (fold_left_push
             (fun row => join [COMMA]
                           (outputRow toUpperCase StringToNumber c file_name row))).
  cbn [app map]. f_equal. f_equal.
  - f_equal. rewrite map_map. cbn [fst]. symmetry. apply map_id.
  - rewrite map_map. apply map_ext. intros row. f_equal.
    unfold outputRow. now rewrite map_map.
Qed.

(** X15. The emitted document read back by the parser: when no header
    name holds a double quote, a comma or a line terminator, parsing
    what [generateCSV] returns gives the header names and then, row by
    row, the values of the fields, every cell trimmed, without the rows
    that have no cell or only empty cells.  Commas, quotes and line
    terminators inside the values come back unchanged. *)
Theorem parse_of_emitted
    (toUpperCase : jsstring -> jsstring) (StringToNumber : jsstring -> option Z)
    (c : list ExportField) (grid : list (list jsstring)) (file_name : jsstring) :
  forallb plainText (map headerName c) = true ->
  Csv.parseCSV (generateCSV toUpperCase StringToNumber c grid file_name)
  = filter Csv.keepRow
      (map (map trim)
         (map headerName c
          :: map (fun row => map (fieldValue toUpperCase StringToNumber file_name row) c)
                 (tl grid))).
Proof.
  intros Hplain.
  assert (Hparse : forall t, Csv.parseCSV t
                             = filter Csv.keepRow (Csv.flush (Csv.run t Csv.start)))
    by (intros [|x t]; reflexivity).
  rewrite Hparse, generateCSV_lines. unfold Csv.start.
  rewrite RoundTrip.run_document.
  - cbn [app]. rewrite <- RoundTrip.filter_cellsOrBlank.
    f_equal. cbn [map]. f_equal.
    + f_equal. rewrite map_map. cbn [snd]. apply map_id.
    + rewrite !map_map. apply map_ext. intros row. f_equal.
      rewrite map_map. reflexivity.
  - rewrite Forall_forall. intros p Hp. apply in_map_iff in Hp.
    destruct Hp as (h & <- & Hh). apply RoundTrip.scansAs_plain.
    rewrite forallb_forall in Hplain. now apply Hplain.
  - rewrite Forall_forall. intros l Hl. apply in_map_iff in Hl.
    destruct Hl as (row & <- & _). rewrite Forall_forall. intros p Hp.
    apply in_map_iff in Hp. destruct Hp as (f & <- & _).
    apply RoundTrip.scansAs_quoted.
Qed.

Lemma parse_of_emitted_witness :
  Csv.parseCSV (generateCSV toUpperCase_basic StringToNumber_digits twoColumns
                  twoColumnGrid (str "quiz.csv"))
  = [[str "h1"; str "h2"]; [str "a,b"; str "c" ++ [DQUOTE] ++ str "d"]].
Proof.
  apply (parse_of_emitted toUpperCase_basic StringToNumber_digits twoColumns
           twoColumnGrid (str "quiz.csv") eq_refl).
Defined.

(** ** More on the handlers *)

(** X16. A field added under an identifier that no field has, and then
    removed by its bin, leaves the configuration as it was. *)
Theorem removeField_undoes_addField
    (newId : jsstring) (c : list ExportField) (kind : FieldSourceType)
    (value : option jsvalue) (label : option jsstring) :
  ~ In newId (map id c) ->
  Editor.removeField (Editor.addField newId c kind value label) newId = c.
Proof.
  intros Hfresh. unfold Editor.addField, Editor.removeField.
  rewrite filter_app. cbn [filter id].
  rewrite ConfigFacts.jsstring_eqb_refl. cbn [negb]. rewrite app_nil_r.
  now apply ConfigFacts.removeField_absent.
Qed.

Lemma removeField_undoes_addField_witness :
  Editor.removeField
    (Editor.addField (str "k3x9") twoColumns constant (Some (VStr (str "note"))) None)
    (str "k3x9")
  = twoColumns.
Proof.
  apply (removeField_undoes_addField (str "k3x9") twoColumns constant
           (Some (VStr (str "note"))) None).
  simpl. intuition discriminate.
Defined.



